(** * PrecisionADC: a shallow embedding of the Arduino library

    The development follows [PrecisionADC.h] and [PrecisionADC.cpp] (the
    key-table revision): the supply-voltage arithmetic of [readVcc], the
    serial key decoder [readSerial], the EEPROM record of [toEEPROM] and
    [fromEEPROM], and the interactive loop [calibrateBG].

    Target conventions (AVR, avr-gcc): [int] is 16 bits, [long] is 32 bits,
    multi-byte values are little-endian and structs are not padded.
    Fixed-width integers are values of [Z] with the wrap-around written
    out.  Operations whose behaviour C++ leaves undefined (integer division
    by zero, an array access past the end) are modelled as explicit
    failures. *)

From Stdlib Require Import ZArith Lia Bool String Ascii.
From stdpp Require Import base list.

Local Open Scope Z_scope.

(** ** Fixed-width integers *)

Module Width.

Definition u8 (z : Z) : Z := z mod 2 ^ 8.
Definition u16 (z : Z) : Z := z mod 2 ^ 16.
Definition u32 (z : Z) : Z := z mod 2 ^ 32.

(** Value of a 16-bit pattern read as the signed [int] of the target. *)
Definition s16 (z : Z) : Z :=
  let w := u16 z in if w <? 2 ^ 15 then w else w - 2 ^ 16.

Definition is_u8 (z : Z) : Prop := 0 <= z < 2 ^ 8.
Definition is_u16 (z : Z) : Prop := 0 <= z < 2 ^ 16.
Definition is_u32 (z : Z) : Prop := 0 <= z < 2 ^ 32.

End Width.

Import Width.

(** ** Voltage estimator: [bgADC] and [readVcc] *)

(** [#define BGREFmV 1100] *)
Definition BGREFmV : Z := 1100.

(** [bgADC]: the register set-up and the conversion wait are hardware
    actions; what the function computes is
    [uint32_t result = (high<<8) | low] from the two data registers.  Both
    operands are [uint8_t], promoted to the 16-bit [int]; the [int] result
    is then converted to [uint32_t]. *)
Definition bgADC (ADCL ADCH : Z) : Z :=
  u32 (s16 (Z.lor (Z.shiftl ADCH 8) ADCL)).

(** [readVcc], as a function of the object's [bgRefmV] and of the value
    [bgVal] returned by [bgADC]:
    [uint32_t vcc = (bgRefmV * 1024L) / bgVal; return (uint16_t)vcc;].
    The product is a [long]; it is converted to [uint32_t] for the
    division.  The source does not test the divisor: a division by zero is
    undefined, hence [None]. *)
Definition readVcc (bgRefmV bgVal : Z) : option Z :=
  if bgVal =? 0 then None
  else
    let vcc := u32 (u32 (bgRefmV * 1024) / bgVal) in
    Some (u16 vcc).

(** Nearest-integer rounding of the rational [n / d], stated without a
    tie-breaking rule: [q] is a nearest integer iff [|q * d - n| <= d / 2]. *)
Definition nearest (n d q : Z) : Prop := 2 * Z.abs (q * d - n) <= d.

(** The full-scale code count of the 10-bit converter. *)
Definition FULL_SCALE : Z := 1024.

(** ** Key decoder: [keyTab] and [readSerial] *)

Definition CR : Z := 13.
Definition LF : Z := 10.

(** [#define KBUFSZ 3] *)
Definition KBUFSZ : nat := 3.

(** [const char keyTab[][KBUFSZ]]: every row has [KBUFSZ] cells, the
    initialiser pads the unused trailing cells with 0. *)
Definition keyTab : list (list Z) :=
  [ [49; 0; 0];      (* '1'  KEY_1 *)
    [50; 0; 0];      (* '2'  KEY_2 *)
    [32; 0; 0];      (* ' '  KEY_SPC *)
    [27; 91; 65];    (* KEY_AUP, up arrow *)
    [27; 91; 66];    (* KEY_ADN, down arrow *)
    [27; 0; 0];      (* KEY_ESC *)
    [113; 0; 0];     (* 'q'  KEY_q *)
    [106; 0; 0];     (* 'j'  KEY_j *)
    [107; 0; 0] ].   (* 'k'  KEY_k *)

(** [keyTabLen = sizeof(keyTab) / (KBUFSZ * sizeof(char))] *)
Definition keyTabLen : Z :=
  Z.of_nat (length (concat keyTab)) / (Z.of_nat KBUFSZ * 1).

Definition NO_KEY : Z := -1.
Definition KEY_1 : Z := 0.
Definition KEY_2 : Z := 1.
Definition KEY_SPC : Z := 2.
Definition KEY_AUP : Z := 3.
Definition KEY_ADN : Z := 4.
Definition KEY_ESC : Z := 5.
Definition KEY_q : Z := 6.
Definition KEY_j : Z := 7.
Definition KEY_k : Z := 8.

(** The transport and the clock.  [now] is the reading of [millis()] (a
    [uint32_t]); [pending] lists the bytes that have not been read yet, in
    arrival order, each with the clock value at which it reaches the
    receive buffer. *)
Record world : Type := World {
  now : Z;
  pending : list (Z * Z)
}.

(** [Serial.available()] *)
Definition Serial_available (t : Z) (inp : list (Z * Z)) : bool :=
  match inp with
  | (at_, _) :: _ => at_ <=? t
  | [] => false
  end.

(** What a call of [readSerial] does: it returns a key (with the world it
    leaves behind), or it accesses [buf] at an index outside the array. *)
Inductive outcome : Type :=
| Returned (key : Z) (w : world)
| BufFault (idx : nat) (w : world).

(** The inner [while(c<KBUFSZ && keyTab[k][c]==buf[c]) c++], started at
    [c = 0], on two arrays of [KBUFSZ] cells: the final value of [c]. *)
Fixpoint match_len (entry buf : list Z) : nat :=
  match entry, buf with
  | e :: entry', b :: buf' =>
      if e =? b then S (match_len entry' buf') else O
  | _, _ => O
  end.

(** The [for (uint8_t k=0; k<keyTabLen; k++)] loop over the rows that are
    left, threading [matchedKey] and [partial]. *)
Fixpoint scan_keys (rows : list (list Z)) (k : Z) (buf : list Z)
    (matchedKey partial : Z) : Z * Z :=
  match rows with
  | [] => (matchedKey, partial)
  | row :: rows' =>
      if negb (nth 0 buf 0 =? nth 0 row 0) then
        scan_keys rows' (k + 1) buf matchedKey partial
      else if Nat.eqb (match_len row buf) KBUFSZ then
        scan_keys rows' (k + 1) buf k partial
      else
        scan_keys rows' (k + 1) buf matchedKey (u8 (partial + 1))
  end.

(** One pass of [matchedKey = NO_KEY; partial = 0; for ...]. *)
Definition match_buffer (buf : list Z) : Z * Z :=
  scan_keys keyTab 0 buf NO_KEY 0.

(** The [while(millis() < exitAt)] loop.  The busy wait
    [if(!Serial.available()) continue;] is taken in one stride: the next
    byte is seen at the later of [t] and its arrival time, if that is
    before the deadline; otherwise the loop leaves at the deadline.  Each
    byte that is read is removed from [inp], so the recursion is on [inp]. *)
Fixpoint readSerial_loop (tout : Z) (inp : list (Z * Z)) (t : Z)
    (buf : list Z) (bufIdx : nat) (exitAt matchedKey : Z) : outcome :=
  match inp with
  | [] => Returned matchedKey (World (Z.max t exitAt) [])
  | (at_, byte) :: inp' =>
      let t' := Z.max t at_ in
      if negb (t' <? exitAt) then
        Returned matchedKey (World (Z.max t exitAt) inp)
      else if negb (Nat.ltb bufIdx KBUFSZ) then
        (* buf[bufIdx] = Serial.read() with bufIdx outside buf *)
        BufFault bufIdx (World t' inp')
      else
        let buf1 := <[bufIdx := byte]> buf in
        if (byte =? CR) || (byte =? LF) then
          readSerial_loop tout inp' t' (<[bufIdx := 0]> buf1) bufIdx
            exitAt matchedKey
        else
          let exitAt' := u32 (t' + tout) in
          let '(matchedKey', partial) := match_buffer buf1 in
          if negb (matchedKey' =? NO_KEY) && (partial =? 0)
             && negb (Serial_available t' inp') then
            Returned matchedKey' (World t' inp')
          else if (partial =? 0) || Nat.eqb bufIdx KBUFSZ then
            Returned NO_KEY (World t' inp')
          else
            readSerial_loop tout inp' t' buf1 (S bufIdx) exitAt' matchedKey'
  end.

(** [int8_t PrecisionADC::readSerial(uint8_t tout)] *)
Definition readSerial (tout : Z) (w : world) : outcome :=
  if negb (Serial_available (now w) (pending w)) then Returned NO_KEY w
  else
    readSerial_loop tout (pending w) (now w)
      (replicate KBUFSZ 0) O (u32 (now w + tout)) NO_KEY.

(** The input stays silent until [deadline]: no byte is left, or the next
    one arrives at [deadline] or later. *)
Definition quiet_until (deadline : Z) (inp : list (Z * Z)) : Prop :=
  match inp with
  | [] => True
  | (at_, _) :: _ => deadline <= at_
  end.

(** ** Persistence: [bgMem], [toEEPROM], [fromEEPROM] *)

(** [typedef struct { char label[5]; uint16_t bgRef; } bgMem;]  The
    characters of [label] are kept as byte values 0..255. *)
Record bgMem : Type := BgMem {
  label : list Z;
  bgRef : Z
}.

(** [bgMem bgEEPROMID {"bgID"};]: the tag, its terminating 0, and a
    zero-initialised [bgRef]. *)
Definition bgID : list Z := [98; 103; 73; 68; 0].
Definition bgEEPROMID_init : bgMem := BgMem bgID 0.

(** [sizeof(bgMem)]: five characters and a two-byte integer, unpadded. *)
Definition sizeof_bgMem : Z := 7.

(** The object representation of a [bgMem] and its inverse. *)
Definition bgMem_bytes (m : bgMem) : list Z :=
  label m ++ [u8 (bgRef m); u8 (bgRef m / 2 ^ 8)].

Definition bgMem_of_bytes (bs : list Z) : bgMem :=
  BgMem (take 5 bs) (nth 5 bs 0 + 2 ^ 8 * nth 6 bs 0).

(** [strcmp] on character arrays.  It stops at the first difference or at
    a common 0; running off either array before that is a read outside
    the object, [None]. *)
Fixpoint strcmp (s1 s2 : list Z) : option Z :=
  match s1, s2 with
  | c1 :: s1', c2 :: s2' =>
      if c1 =? c2 then (if c1 =? 0 then Some 0 else strcmp s1' s2')
      else Some (c1 - c2)
  | _, _ => None
  end.

(** The Arduino [EEPROM] object: [put] copies the object representation
    to consecutive cells, [get] reads it back.  The store is the list of
    its cells; both functions are used inside the store only (see
    [eeprom_ok] below). *)
Definition EEPROM_put (addr : Z) (bs : list Z) (e : list Z) : list Z :=
  list_inserts (Z.to_nat addr) bs e.

Definition EEPROM_get (addr : Z) (n : Z) (e : list Z) : list Z :=
  take (Z.to_nat n) (drop (Z.to_nat addr) e).

(** Text sent to [Serial]: literal strings and numbers printed in decimal. *)
Inductive out_item : Type :=
| Text (s : string)
| Num (n : Z).

(** The state the class works on: the member [bgRefmV], the global
    [bgEEPROMID], the EEPROM cells and what has been printed so far. *)
Record device : Type := Device {
  bgRefmV : Z;
  bgEEPROMID : bgMem;
  eeprom : list Z;
  console : list out_item
}.

Definition Serial_print (items : list out_item) (d : device) : device :=
  Device (bgRefmV d) (bgEEPROMID d) (eeprom d) (console d ++ items).

(** [void setBGRef(uint16_t mV) {bgRefmV = mV;}] and [getBGRef]. *)
Definition setBGRef (mV : Z) (d : device) : device :=
  Device (u16 mV) (bgEEPROMID d) (eeprom d) (console d).

Definition getBGRef (d : device) : Z := bgRefmV d.

Section Firmware.

(** [E2END], the last EEPROM address, comes from the device header of
    avr-libc. *)
Variable E2END : Z.

(** [const uint16_t EEPROMAddy = E2END - sizeof(bgMem);] *)
Definition EEPROMAddy : Z := u16 (E2END - sizeof_bgMem).

(** The EEPROM has cells [0 .. E2END] and the record fits below [E2END]. *)
Definition eeprom_ok (e : list Z) : Prop :=
  sizeof_bgMem <= E2END < 2 ^ 16 /\ Z.of_nat (length e) = E2END + 1.

(** [void PrecisionADC::toEEPROM()] *)
Definition toEEPROM (d : device) : device :=
  let id := BgMem (label (bgEEPROMID d)) (bgRefmV d) in
  Device (bgRefmV d) id (EEPROM_put EEPROMAddy (bgMem_bytes id) (eeprom d))
    (console d).

(** [bool PrecisionADC::fromEEPROM()] *)
Definition fromEEPROM (d : device) : option (bool * device) :=
  let savedRef := bgMem_of_bytes (EEPROM_get EEPROMAddy sizeof_bgMem (eeprom d)) in
  match strcmp (label (bgEEPROMID d)) (label savedRef) with
  | None => None
  | Some r =>
      if r =? 0 then
        Some (true, Device (bgRef savedRef) (bgEEPROMID d) (eeprom d) (console d))
      else Some (false, d)
  end.

(** [PrecisionADC() : bgRefmV(BGREFmV) { fromEEPROM(); }] *)
Definition PrecisionADC_default (d : device) : option device :=
  match fromEEPROM (setBGRef BGREFmV d) with
  | Some (_, d') => Some d'
  | None => None
  end.

(** [PrecisionADC(uint16_t mV) : bgRefmV(mV) {}] *)
Definition PrecisionADC_mV (mV : Z) (d : device) : device := setBGRef mV d.

(** *** The interactive loop [calibrateBG] *)

(** The line ends used by the source: ["\n\r"] in its literals and the
    ["\r\n"] that [println] appends. *)
Definition nlcr : string :=
  String (ascii_of_nat 10) (String (ascii_of_nat 13) EmptyString).
Definition crnl : string :=
  String (ascii_of_nat 13) (String (ascii_of_nat 10) EmptyString).

(** [const char menu[]] *)
Definition menu : string :=
  String.concat nlcr
    [ EmptyString;
      "== Bandgap calibration ==";
      "[Space] to enter calibration display.";
      "[1] to retrieved saved bandgap value from EEPROM.";
      "[2] to save current bandgap value to EEPROM.";
      "[Escape]/[q] to exit calibration.";
      EmptyString;
      "While in calibration display, press:";
      "[Space] to return to this menu.";
      "[Up/Down arrows]/[k or j] to adjust bandgap voltage while";
      "  measuring the supply voltage (Vcc) externally with";
      "  a multimeter.";
      EmptyString;
      "[Space], [1], [2] or [Escape]/[q]?";
      EmptyString;
      EmptyString ]%string.

Definition msg_saved : string :=
  (nlcr ++ "Saved to EEPROM." ++ nlcr ++ nlcr)%string.
Definition msg_retrieved : string :=
  ("Retrieved saved value from EEPROM." ++ nlcr ++ nlcr)%string.
Definition msg_not_found : string :=
  (nlcr ++ "No saved bandgap value found in EEPROM." ++ nlcr)%string.

(** [#define FT_STATE_MENU 'A'] and [#define FT_STATE_TUNE 'B'] *)
Inductive ft_state : Type := FT_STATE_MENU | FT_STATE_TUNE.

Definition ft_state_eqb (a b : ft_state) : bool :=
  match a, b with
  | FT_STATE_MENU, FT_STATE_MENU | FT_STATE_TUNE, FT_STATE_TUNE => true
  | _, _ => false
  end.

(** The locals of [calibrateBG] that live across iterations. *)
Record locals : Type := Locals {
  state : ft_state;
  nextUpdate : Z
}.

(** [const uint16_t updateFreq = 1000;] *)
Definition updateFreq : Z := 1000.

(** What one iteration of the loop observes from its surroundings: the
    value returned by [readSerial()], the reading of [millis()] in the
    test against [nextUpdate], the value [bgADC()] yields if the display
    is refreshed, and the reading of [millis()] when [nextUpdate] is
    reset after the refresh. *)
Record poll : Type := Poll {
  key : Z;
  clock : Z;
  sample : Z;
  clock_after : Z
}.

Inductive step_result : Type :=
| Continue (d : device) (l : locals)    (* next iteration *)
| Exit (d : device)                     (* [return] *)
| DivFault (d : device)                 (* division by zero in [readVcc] *)
| StrFault (d : device).                (* [strcmp] left its arrays *)

(** The body of [while (true)]. *)
Definition calibrateBG_step (p : poll) (d : device) (l : locals)
    : step_result :=
  if key p =? NO_KEY then
    if ft_state_eqb (state l) FT_STATE_TUNE && (nextUpdate l <=? clock p) then
      let d1 := Serial_print [Text "Vcc: "] d in
      match readVcc (bgRefmV d1) (sample p) with
      | None => DivFault d1
      | Some vcc =>
          let d2 :=
            Serial_print
              [Num vcc; Text "mv, BG ref: "; Num (bgRefmV d1);
               Text ("mV" ++ nlcr)] d1 in
          Continue d2 (Locals (state l) (u32 (clock_after p + updateFreq)))
      end
    else Continue d l
  else if key p =? KEY_SPC then
    let state' :=
      if ft_state_eqb (state l) FT_STATE_MENU then FT_STATE_TUNE
      else FT_STATE_MENU in
    let d' :=
      if ft_state_eqb state' FT_STATE_MENU then Serial_print [Text menu] d
      else d in
    Continue d' (Locals state' (nextUpdate l))
  else if (key p =? KEY_ESC) || (key p =? KEY_q) then
    if ft_state_eqb (state l) FT_STATE_MENU then Exit d
    else
      Continue (Serial_print [Text menu] d)
        (Locals FT_STATE_MENU (nextUpdate l))
  else if ft_state_eqb (state l) FT_STATE_MENU then
    if negb (key p =? KEY_1) && negb (key p =? KEY_2) then Continue d l
    else if key p =? KEY_2 then
      Continue (Serial_print [Text msg_saved] (toEEPROM d))
        (Locals FT_STATE_TUNE (nextUpdate l))
    else
      match fromEEPROM d with
      | None => StrFault d
      | Some (true, d') =>
          Continue (Serial_print [Text msg_retrieved] d')
            (Locals FT_STATE_TUNE (nextUpdate l))
      | Some (false, d') =>
          Continue (Serial_print [Text msg_not_found] d') l
      end
  else
    if (key p =? KEY_AUP) || (key p =? KEY_k) then
      let d1 := Serial_print [Text ("[up]" ++ crnl)] d in
      Continue (setBGRef (bgRefmV d1 + 1) d1) l
    else if (key p =? KEY_ADN) || (key p =? KEY_j) then
      let d1 := Serial_print [Text ("[down]" ++ crnl)] d in
      Continue (setBGRef (bgRefmV d1 - 1) d1) l
    else Continue d l.

(** The loop, driven by the observations of successive iterations; it
    stops at the first iteration that does not continue. *)
Fixpoint calibrateBG_loop (ps : list poll) (d : device) (l : locals)
    : step_result :=
  match ps with
  | [] => Continue d l
  | p :: ps' =>
      match calibrateBG_step p d l with
      | Continue d' l' => calibrateBG_loop ps' d' l'
      | r => r
      end
  end.

(** [void PrecisionADC::calibrateBG()], entered when [millis()] reads
    [t0]: the initialisation of the locals, the menu, then the loop. *)
Definition calibrateBG_entry (t0 : Z) (d : device) : device * locals :=
  (Serial_print [Text menu] d,
   Locals FT_STATE_MENU (u32 (t0 + updateFreq))).

Definition calibrateBG (t0 : Z) (ps : list poll) (d : device)
    : step_result :=
  let '(d0, l0) := calibrateBG_entry t0 d in calibrateBG_loop ps d0 l0.

End Firmware.

(** ** Analog reading in millivolt: [analogVoltage] *)

(** The [long] arithmetic of the target: a result outside the 32-bit
    signed range is an overflow, which C++ leaves undefined. *)
Definition s32 (z : Z) : option Z :=
  if (- 2 ^ 31 <=? z) && (z <? 2 ^ 31) then Some z else None.

(** [long map(long x, long in_min, long in_max, long out_min, long out_max)]
    of the Arduino core, called by [analogVoltage]:
    [return (x - in_min) * (out_max - out_min) / (in_max - in_min) + out_min;]
    Division truncates towards zero ([Z.quot]); a zero divisor and an
    overflowing intermediate result are undefined. *)
Definition Arduino_map (x in_min in_max out_min out_max : Z) : option Z :=
  match s32 (x - in_min), s32 (out_max - out_min), s32 (in_max - in_min) with
  | Some dx, Some dout, Some din =>
      match s32 (dx * dout) with
      | Some num =>
          if din =? 0 then None
          else
            match s32 (Z.quot num din) with
            | Some q => s32 (q + out_min)
            | None => None
            end
      | None => None
      end
  | _, _, _ => None
  end.

(** [uint16_t PrecisionADC::analogVoltage(uint16_t pin)], as a function of
    the object's [bgRefmV], of the value [bgVal] that [bgADC] returns
    inside [readVcc], and of the value [adc] that [analogRead(pin)]
    returns:
    [uint16_t vcc = readVcc(); uint16_t adcIn = analogRead(pin);
     return map(adcIn, 0, 1023, 0, vcc);] *)
Definition analogVoltage (bgRefmV bgVal adc : Z) : option Z :=
  match readVcc bgRefmV bgVal with
  | None => None
  | Some vcc =>
      let adcIn := u16 adc in
      match Arduino_map adcIn 0 1023 0 vcc with
      | Some mV => Some (u16 mV)
      | None => None
      end
  end.

(** ** Vocabulary for the key decoder *)

(** The bytes [readSerial] keeps: everything but CR and LF. *)
Definition is_eol (b : Z) : bool := (b =? CR) || (b =? LF).

Definition keystrokes (bs : list Z) : list Z :=
  List.filter (fun b => negb (is_eol b)) bs.

(** A byte sequence as it lies in [buf]: followed by zeros up to
    [KBUFSZ] cells. *)
Definition pad_row (bs : list Z) : list Z :=
  bs ++ replicate (KBUFSZ - length bs) 0.

(** The bytes a terminal sends for a row of [keyTab]: the row without its
    zero padding. *)
Definition row_bytes (row : list Z) : list Z :=
  List.filter (fun b => negb (b =? 0)) row.

(** A key is either [NO_KEY] or the index of a row that equals [row]. *)
Definition names_row (k : Z) (row : list Z) : Prop :=
  k = NO_KEY \/
  (0 <= k < keyTabLen /\ keyTab !! Z.to_nat k = Some row).

(** The later of [t] and the arrival times of the bytes in [bs]. *)
Definition latest (t : Z) (bs : list (Z * Z)) : Z :=
  fold_left Z.max (map fst bs) t.

(** The world an outcome leaves behind. *)
Definition outcome_world (o : outcome) : world :=
  match o with
  | Returned _ w => w
  | BufFault _ w => w
  end.

(** ** Vocabulary for the calibration loop *)

(** The device a step leaves behind, however it ends. *)
Definition result_device (r : step_result) : device :=
  match r with
  | Continue d _ => d
  | Exit d => d
  | DivFault d => d
  | StrFault d => d
  end.

(** What a key does to the reference constant in Tuning. *)
Definition key_delta (k : Z) : Z :=
  if (k =? KEY_AUP) || (k =? KEY_k) then 1
  else if (k =? KEY_ADN) || (k =? KEY_j) then -1
  else 0.

Definition net_adjust (ps : list poll) : Z :=
  fold_right (fun p acc => key_delta (key p) + acc) 0 ps.

(** The keys that leave the loop in Tuning: a key was decoded, and it is
    none of space, escape and 'q'. *)
Definition tune_key (p : poll) : Prop :=
  key p <> NO_KEY /\ key p <> KEY_SPC /\ key p <> KEY_ESC /\ key p <> KEY_q.

(** ** The first revision of the decoder

    [PrecisionADC.cpp] of the first revision decodes the keys with a
    hand-written state machine and its own key codes. *)

Module Legacy.

Definition KEY_UP : Z := 1.
Definition KEY_DOWN : Z := 2.
Definition KEY_SPACE : Z := 3.
Definition KEY_ESC : Z := 4.
Definition KEY_ONE : Z := 5.
Definition KEY_TWO : Z := 6.

(** [char state]: of the states the source lists, only ['A'] (start),
    ['B'] (escape received) and ['C'] (escape and '[' received) are ever
    assigned; the others are left by [return]. *)
Inductive rs_state : Type := StA | StB | StC.

(** The tail of the function, after the loop:
    [if (state == 'B') return KEY_ESC; return 0;] *)
Definition after_loop (st : rs_state) : Z :=
  match st with
  | StB => KEY_ESC
  | _ => 0
  end.

(** The [while(millis() < exitAt)] loop with its [switch (in)]; the busy
    wait is taken in one stride as in [readSerial_loop]. *)
Fixpoint readSerial_loop (tout : Z) (inp : list (Z * Z)) (t : Z)
    (st : rs_state) (exitAt : Z) : Z * world :=
  match inp with
  | [] => (after_loop st, World (Z.max t exitAt) [])
  | (at_, byte) :: inp' =>
      let t' := Z.max t at_ in
      if negb (t' <? exitAt) then (after_loop st, World (Z.max t exitAt) inp)
      else
        let exitAt' := u32 (t' + tout) in
        if byte =? 27 then
          readSerial_loop tout inp' t'
            (match st with StA => StB | _ => StA end) exitAt'
        else if byte =? 91 then
          readSerial_loop tout inp' t'
            (match st with StB => StC | _ => StA end) exitAt'
        else if (byte =? 65) || (byte =? 66) then
          match st with
          | StC => (if byte =? 65 then KEY_UP else KEY_DOWN, World t' inp')
          | _ => readSerial_loop tout inp' t' StA exitAt'
          end
        else if byte =? 32 then
          match st with
          | StA => (KEY_SPACE, World t' inp')
          | _ => readSerial_loop tout inp' t' StA exitAt'
          end
        else if (byte =? 49) || (byte =? 50) then
          match st with
          | StA => (if byte =? 49 then KEY_ONE else KEY_TWO, World t' inp')
          | _ => readSerial_loop tout inp' t' StA exitAt'
          end
        else readSerial_loop tout inp' t' StA exitAt'
  end.

(** [uint8_t PrecisionADC::readSerial(uint8_t tout)], first revision. *)
Definition readSerial (tout : Z) (w : world) : Z * world :=
  readSerial_loop tout (pending w) (now w) StA (u32 (now w + tout)).

(** The bytes that spell a key code, and the bytes a state stands for. *)
Definition spelling (k : Z) : list Z :=
  if k =? KEY_UP then [27; 91; 65]
  else if k =? KEY_DOWN then [27; 91; 66]
  else if k =? KEY_SPACE then [32]
  else if k =? KEY_ESC then [27]
  else if k =? KEY_ONE then [49]
  else if k =? KEY_TWO then [50]
  else [].

Definition state_spelling (st : rs_state) : list Z :=
  match st with
  | StA => []
  | StB => [27]
  | StC => [27; 91]
  end.

End Legacy.

(** The key code of the first revision for an index of [keyTab]; 0 (its
    "no key") for the rows it does not know. *)
Definition legacy_code (k : Z) : Z :=
  if k =? KEY_1 then Legacy.KEY_ONE
  else if k =? KEY_2 then Legacy.KEY_TWO
  else if k =? KEY_SPC then Legacy.KEY_SPACE
  else if k =? KEY_AUP then Legacy.KEY_UP
  else if k =? KEY_ADN then Legacy.KEY_DOWN
  else if k =? KEY_ESC then Legacy.KEY_ESC
  else 0.

(** * Properties *)

(** ** Fixed-width arithmetic *)

Lemma u16_small z : is_u16 z -> u16 z = z.
Proof. unfold is_u16, u16. intros H. apply Z.mod_small. exact H. Qed.

Lemma u32_small z : is_u32 z -> u32 z = z.
Proof. unfold is_u32, u32. intros H. apply Z.mod_small. exact H. Qed.

Lemma u16_range z : is_u16 (u16 z).
Proof. unfold is_u16, u16. apply Z.mod_pos_bound. lia. Qed.

Lemma u32_range z : is_u32 (u32 z).
Proof. unfold is_u32, u32. apply Z.mod_pos_bound. lia. Qed.

(** A 10-bit conversion result ([ADCH] at most 3) is returned unchanged by
    [bgADC], as a code in [0, 1023]. *)
Lemma bgADC_ten_bits lo hi :
  is_u8 lo -> 0 <= hi <= 3 ->
  bgADC lo hi = 256 * hi + lo /\ 0 <= bgADC lo hi <= 1023.
Proof.
  unfold is_u8. intros Hlo Hhi.
  assert (Hland : Z.land (hi * 2 ^ 8) lo = 0).
  { apply Z.bits_inj'. intros n Hn. rewrite Z.land_spec, Z.bits_0.
    destruct (Z.ltb_spec n 8).
    - rewrite Z.mul_pow2_bits_low by lia. reflexivity.
    - rewrite (Z.bits_above_log2 lo n), andb_false_r; [reflexivity|lia|].
      destruct (Z.eq_dec lo 0) as [->|]; [simpl; lia|].
      apply Z.log2_lt_pow2; [lia|].
      apply Z.lt_le_trans with (2 ^ 8); [lia|].
      apply Z.pow_le_mono_r; lia. }
  assert (Hor : Z.lor (Z.shiftl hi 8) lo = 256 * hi + lo).
  { rewrite Z.shiftl_mul_pow2 by lia.
    rewrite <- Z.lxor_lor by exact Hland.
    rewrite <- Z.add_nocarry_lxor by exact Hland. lia. }
  unfold bgADC, s16, u32, u16. rewrite Hor.
  rewrite (Z.mod_small (256 * hi + lo) (2 ^ 16)) by lia.
  destruct (Z.ltb_spec (256 * hi + lo) (2 ^ 15)); [|lia].
  rewrite Z.mod_small by lia. lia.
Qed.

(** ** Voltage estimator *)

Lemma readVcc_nonzero r a :
  a <> 0 -> readVcc r a = Some (u16 (u32 (u32 (r * 1024) / a))).
Proof.
  intros Ha. unfold readVcc.
  destruct (Z.eqb_spec a 0) as [E|_]; [contradiction|reflexivity].
Qed.

(** In the calibrated range the 32-bit intermediate results do not wrap:
    only the final conversion to [uint16_t] reduces the quotient. *)
Lemma readVcc_quotient r a :
  1 <= a -> 0 <= r < 2 ^ 16 ->
  readVcc r a = Some ((r * 1024 / a) mod 2 ^ 16).
Proof.
  intros Ha Hr. rewrite readVcc_nonzero by lia.
  assert (Hn : is_u32 (r * 1024)) by (unfold is_u32; lia).
  rewrite (u32_small _ Hn).
  assert (Hq : 0 <= r * 1024 / a <= r * 1024).
  { split; [apply Z.div_pos; lia|].
    apply Z.div_le_upper_bound; [lia|]. nia. }
  rewrite u32_small by (unfold is_u32 in *; lia).
  reflexivity.
Qed.

(** With a sample of at least 19 the quotient fits in 16 bits for every
    reference constant up to 1200. *)
Lemma readVcc_floor r a :
  19 <= a -> 0 <= r <= 1200 -> readVcc r a = Some (r * 1024 / a).
Proof.
  intros Ha Hr. rewrite readVcc_quotient by lia.
  f_equal. apply Z.mod_small. split; [apply Z.div_pos; lia|].
  apply Z.div_lt_upper_bound; lia.
Qed.

(** C1.  The specification asks that a raw bandgap sample of zero never reaches a
    division and yields an error value.  [readVcc] has no test of the
    divisor: for every reference constant a zero sample is divided by, and
    no value is defined. *)
Theorem readVcc_zero_sample_divides r : readVcc r 0 = None.
Proof. reflexivity. Qed.

(** C2, as the spec states it, fails: the quotient is truncated, not
    rounded (sample 1023, constant 1000: the function yields 1000 where
    the nearest integer to 1024000/1023 is 1001), and it is reduced to 16
    bits (sample 1, constant 1100: 12288, not 1126400). *)
Lemma readVcc_round_counterexample :
  readVcc 1000 1023 = Some 1000 /\
  ~ nearest (1000 * FULL_SCALE) 1023 1000 /\
  nearest (1000 * FULL_SCALE) 1023 1001 /\
  readVcc 1100 1 = Some 12288 /\
  ~ nearest (1100 * FULL_SCALE) 1 12288.
Proof.
  unfold nearest, FULL_SCALE.
  repeat split; try reflexivity; simpl; lia.
Qed.

(** C2, amended.  For every sample [a] in [1, 1024] and every reference
    constant [r] in [1000, 1200], [readVcc] returns the truncated quotient
    [r * FULL_SCALE / a] reduced modulo 2^16; from [a = 19] on this is the
    truncated quotient itself, the largest integer [q] with
    [q * a <= r * FULL_SCALE]. *)
Theorem readVcc_truncated_quotient a r :
  1 <= a <= 1024 -> 1000 <= r <= 1200 ->
  readVcc r a = Some ((r * FULL_SCALE / a) mod 2 ^ 16) /\
  (19 <= a ->
   readVcc r a = Some (r * FULL_SCALE / a) /\
   (r * FULL_SCALE / a) * a <= r * FULL_SCALE < (r * FULL_SCALE / a + 1) * a).
Proof.
  unfold FULL_SCALE. intros Ha Hr. split.
  - apply readVcc_quotient; lia.
  - intros Ha'. split; [apply readVcc_floor; lia|].
    pose proof (Z.div_mod (r * 1024) a ltac:(lia)) as Hdm.
    pose proof (Z.mod_pos_bound (r * 1024) a ltac:(lia)) as Hm.
    nia.
Qed.

Lemma readVcc_truncated_quotient_witness :
  1 <= 230 <= 1024 /\ 1000 <= 1100 <= 1200 /\
  (readVcc 1100 230 = Some ((1100 * FULL_SCALE / 230) mod 2 ^ 16) /\
   (19 <= 230 ->
    readVcc 1100 230 = Some (1100 * FULL_SCALE / 230) /\
    (1100 * FULL_SCALE / 230) * 230 <= 1100 * FULL_SCALE
      < (1100 * FULL_SCALE / 230 + 1) * 230)).
Proof.
  split; [lia|]. split; [lia|].
  apply (readVcc_truncated_quotient 230 1100); lia.
Defined.

(** C3, as the spec states it, fails: with the constant 1100 the sample 1
    yields 12288 and the larger sample 2 yields 38912, because the
    quotient wraps at 16 bits. *)
Lemma readVcc_monotone_counterexample :
  exists v1 v2,
    readVcc 1100 1 = Some v1 /\ readVcc 1100 2 = Some v2 /\ v1 < v2.
Proof. exists 12288, 38912. repeat split. Qed.

(** C3, amended.  For a fixed reference constant in [1000, 1200] the
    value returned by [readVcc] is monotonically decreasing in the sample
    over [19, 1024], the samples whose quotient fits the 16-bit result. *)
Theorem readVcc_monotone r a1 a2 :
  1000 <= r <= 1200 -> 19 <= a1 -> a1 < a2 -> a2 <= 1024 ->
  exists v1 v2,
    readVcc r a1 = Some v1 /\ readVcc r a2 = Some v2 /\ v2 <= v1.
Proof.
  intros Hr H1 H12 H2.
  exists (r * 1024 / a1), (r * 1024 / a2).
  repeat split; try (apply readVcc_floor; lia).
  apply Z.div_le_compat_l; lia.
Qed.

Lemma readVcc_monotone_witness :
  1000 <= 1100 <= 1200 /\ 19 <= 200 /\ 200 < 250 /\ 250 <= 1024 /\
  exists v1 v2,
    readVcc 1100 200 = Some v1 /\ readVcc 1100 250 = Some v2 /\ v2 <= v1.
Proof.
  repeat (split; [lia|]).
  apply (readVcc_monotone 1100 200 250); lia.
Defined.

(** ** Key decoder *)

Lemma Serial_available_quiet t deadline inp :
  t < deadline -> quiet_until deadline inp -> Serial_available t inp = false.
Proof.
  destruct inp as [|[a b] inp']; simpl; [reflexivity|].
  intros Ht Hq. apply Z.leb_gt. lia.
Qed.

(** When nothing arrives before the deadline the loop leaves with the key
    matched so far, at the deadline. *)
Lemma readSerial_loop_timeout tout inp t buf i exitAt mk :
  quiet_until exitAt inp ->
  readSerial_loop tout inp t buf i exitAt mk
  = Returned mk (World (Z.max t exitAt) inp).
Proof.
  destruct inp as [|[a b] inp']; simpl; [reflexivity|].
  intros Hq. destruct (Z.ltb_spec (Z.max t a) exitAt); [lia|reflexivity].
Qed.

(** One iteration that accepts a byte other than CR and LF. *)
Lemma readSerial_loop_accept tout a b inp t buf i exitAt mk :
  Z.max t a < exitAt -> (i < KBUFSZ)%nat -> b <> CR -> b <> LF ->
  readSerial_loop tout ((a, b) :: inp) t buf i exitAt mk
  = let t' := Z.max t a in
    let buf1 := <[i := b]> buf in
    let '(mk', partial) := match_buffer buf1 in
    if negb (mk' =? NO_KEY) && (partial =? 0)
       && negb (Serial_available t' inp) then Returned mk' (World t' inp)
    else if (partial =? 0) || Nat.eqb i KBUFSZ then
      Returned NO_KEY (World t' inp)
    else readSerial_loop tout inp t' buf1 (S i) (u32 (t' + tout)) mk'.
Proof.
  intros Ht Hi Hcr Hlf. simpl.
  destruct (Z.ltb_spec (Z.max t a) exitAt) as [_|]; [|lia].
  destruct (Nat.ltb_spec i KBUFSZ) as [_|]; [|lia].
  destruct (Z.eqb_spec b CR) as [|_]; [contradiction|].
  destruct (Z.eqb_spec b LF) as [|_]; [contradiction|].
  reflexivity.
Qed.

(** The scan visits [keyTabLen] rows. *)
Lemma keyTabLen_rows : keyTabLen = Z.of_nat (length keyTab).
Proof. reflexivity. Qed.

Lemma match_buffer_esc : match_buffer [27; 0; 0] = (KEY_ESC, 2).
Proof. reflexivity. Qed.

Lemma match_buffer_esc_bracket : match_buffer [27; 91; 0] = (NO_KEY, 3).
Proof. reflexivity. Qed.

Lemma match_buffer_up : match_buffer [27; 91; 65] = (KEY_AUP, 2).
Proof. reflexivity. Qed.

Lemma match_buffer_space : match_buffer [32; 0; 0] = (KEY_SPC, 0).
Proof. reflexivity. Qed.

(** Unfold one iteration of the loop on a byte that is accepted, and
    replace the table scan by its value [Hscan]. *)
Ltac accept_byte Hscan :=
  rewrite readSerial_loop_accept by (unfold CR, LF, KBUFSZ; lia);
  cbn [replicate KBUFSZ list_insert insert];
  rewrite Hscan;
  cbn -[Z.max readSerial_loop u32].

(** C6.  Called at time [t] with the byte 27 in the receive buffer:
    if 91 and 65 follow, each less than [tout] after the byte before it
    was read, and nothing else arrives before the last deadline,
    [readSerial] returns [KEY_AUP] (when that deadline passes); if nothing
    follows 27 before its deadline, [readSerial] returns [KEY_ESC] at the
    deadline.  The clock is assumed not to wrap during the call. *)
Theorem readSerial_up_and_escape tout t a0 a1 a2 rest rest' :
  0 < tout -> 0 <= t -> a0 <= t ->
  a1 < t + tout ->
  a2 < Z.max t a1 + tout ->
  Z.max (Z.max t a1) a2 + tout < 2 ^ 32 ->
  quiet_until (Z.max (Z.max t a1) a2 + tout) rest ->
  quiet_until (t + tout) rest' ->
  readSerial tout (World t ((a0, 27) :: (a1, 91) :: (a2, 65) :: rest))
  = Returned KEY_AUP (World (Z.max (Z.max t a1) a2 + tout) rest)
  /\
  readSerial tout (World t ((a0, 27) :: rest'))
  = Returned KEY_ESC (World (t + tout) rest').
Proof.
  intros Htout Ht Ha0 Ha1 Ha2 Hwrap Hrest Hrest'.
  assert (Hm0 : Z.max t a0 = t) by lia.
  assert (Hd0 : u32 (t + tout) = t + tout)
    by (apply u32_small; unfold is_u32; lia).
  assert (Hd1 : u32 (Z.max t a1 + tout) = Z.max t a1 + tout)
    by (apply u32_small; unfold is_u32; lia).
  assert (Hd2 : u32 (Z.max (Z.max t a1) a2 + tout)
                = Z.max (Z.max t a1) a2 + tout)
    by (apply u32_small; unfold is_u32; lia).
  assert (Hav : (a0 <=? t) = true) by (apply Z.leb_le; lia).
  unfold readSerial; cbn [now pending Serial_available negb].
  split.
  - rewrite Hav; cbn [negb].
    accept_byte match_buffer_esc. rewrite Hm0, Hd0.
    accept_byte match_buffer_esc_bracket. rewrite Hd1.
    accept_byte match_buffer_up. rewrite Hd2.
    rewrite readSerial_loop_timeout by exact Hrest.
    f_equal. f_equal. lia.
  - rewrite Hav; cbn [negb].
    accept_byte match_buffer_esc. rewrite Hm0, Hd0.
    rewrite readSerial_loop_timeout by exact Hrest'.
    f_equal. f_equal. lia.
Qed.

Lemma readSerial_up_and_escape_witness :
  readSerial 100 (World 0 [(0, 27); (10, 91); (20, 65)])
  = Returned KEY_AUP (World 120 [])
  /\
  readSerial 100 (World 0 [(0, 27)]) = Returned KEY_ESC (World 100 []).
Proof.
  apply (readSerial_up_and_escape 100 0 0 10 20 [] []);
    try exact I; try reflexivity; lia.
Defined.

(** C7.  Called at time [t] with the byte 32 in the receive buffer and no
    further byte buffered, [readSerial] returns [KEY_SPC] with the clock
    still at [t]: it does not wait for the deadline [t + tout].  The
    clock is assumed not to wrap before that deadline. *)
Theorem readSerial_space_immediate tout t a0 rest :
  0 < tout -> 0 <= t -> t + tout < 2 ^ 32 -> a0 <= t ->
  Serial_available t rest = false ->
  readSerial tout (World t ((a0, 32) :: rest))
  = Returned KEY_SPC (World t rest).
Proof.
  intros Htout Ht Hwrap Ha0 Hrest.
  assert (Hm0 : Z.max t a0 = t) by lia.
  assert (Hd0 : u32 (t + tout) = t + tout)
    by (apply u32_small; unfold is_u32; lia).
  assert (Hav : (a0 <=? t) = true) by (apply Z.leb_le; lia).
  unfold readSerial; cbn [now pending Serial_available negb].
  rewrite Hav; cbn [negb].
  accept_byte match_buffer_space.
  rewrite Hm0, Hrest. reflexivity.
Qed.

Lemma readSerial_space_immediate_witness :
  readSerial 100 (World 7 [(5, 32); (60, 32)])
  = Returned KEY_SPC (World 7 [(60, 32)]).
Proof.
  apply (readSerial_space_immediate 100 7 5 [(60, 32)]);
    try reflexivity; lia.
Defined.

(** [bufIdx] never exceeds [KBUFSZ]: when the loop leaves [buf], it does
    so at the first cell behind the array. *)
Lemma readSerial_loop_fault_index tout inp :
  forall t buf i exitAt mk idx w,
    (i <= KBUFSZ)%nat ->
    readSerial_loop tout inp t buf i exitAt mk = BufFault idx w ->
    idx = KBUFSZ.
Proof.
  induction inp as [|[a b] inp IH]; intros t buf i exitAt mk idx w Hi H;
    cbn [readSerial_loop] in H.
  - discriminate.
  - destruct (negb (Z.max t a <? exitAt)); [discriminate|].
    destruct (Nat.ltb_spec i KBUFSZ) as [Hlt|Hge]; cbn [negb] in H.
    + destruct ((b =? CR) || (b =? LF)).
      * eapply IH; [|exact H]. exact Hi.
      * destruct (match_buffer (<[i:=b]> buf)) as [mk' partial].
        destruct (negb (mk' =? NO_KEY) && (partial =? 0)
                  && negb (Serial_available (Z.max t a) inp));
          [discriminate|].
        destruct ((partial =? 0) || Nat.eqb i KBUFSZ); [discriminate|].
        eapply IH; [|exact H]. lia.
    + injection H as <- _. lia.
Qed.

Lemma readSerial_fault_index tout w idx w' :
  readSerial tout w = BufFault idx w' -> idx = KBUFSZ.
Proof.
  unfold readSerial.
  destruct (negb (Serial_available (now w) (pending w))); [discriminate|].
  apply readSerial_loop_fault_index. unfold KBUFSZ. lia.
Qed.

(** C4.  The specification asks for the fully matched entry whenever no entry
    matches partially, also while more bytes are buffered.  With two
    bytes in the receive buffer at the call, the first of them a complete
    single-byte key (a space followed by a space, or '1' followed by a
    carriage return), the buffer matches that key with no partial match
    left, and [readSerial] returns [NO_KEY]. *)
Theorem readSerial_drops_match_when_more_buffered :
  match_buffer [32; 0; 0] = (KEY_SPC, 0) /\
  readSerial 100 (World 0 [(0, 32); (0, 32)])
  = Returned NO_KEY (World 0 [(0, 32)]) /\
  match_buffer [49; 0; 0] = (KEY_1, 0) /\
  readSerial 100 (World 0 [(0, 49); (0, CR)])
  = Returned NO_KEY (World 0 [(0, CR)]).
Proof. repeat split. Qed.

(** C5.  The specification asks that [buf] is only accessed below [KBUFSZ].  After
    three bytes that leave partial matches (ESC [ C, the right-arrow
    sequence) [bufIdx] is [KBUFSZ]; a fourth byte within the timeout is
    stored at [buf[KBUFSZ]].  The same happens after a complete ESC [ A
    when another byte follows in time. *)
Theorem readSerial_buffer_overrun :
  readSerial 100 (World 0 [(0, 27); (10, 91); (20, 67); (30, 27)])
  = BufFault KBUFSZ (World 30 []) /\
  readSerial 100 (World 0 [(0, 27); (10, 91); (20, 65); (30, 27)])
  = BufFault KBUFSZ (World 30 []).
Proof. split; reflexivity. Qed.

(** ** Persistence *)

Lemma EEPROM_get_put addr (bs e : list Z) :
  0 <= addr -> addr + Z.of_nat (length bs) <= Z.of_nat (length e) ->
  EEPROM_get addr (Z.of_nat (length bs)) (EEPROM_put addr bs e) = bs.
Proof.
  intros H0 Hfit. unfold EEPROM_get, EEPROM_put.
  rewrite Nat2Z.id. apply list_eq. intros j.
  destruct (Nat.lt_ge_cases j (length bs)) as [Hj|Hj].
  - rewrite lookup_take_lt, lookup_drop by exact Hj.
    rewrite list_lookup_inserts by lia.
    f_equal. lia.
  - rewrite lookup_take_ge by exact Hj.
    symmetry. apply lookup_ge_None. exact Hj.
Qed.

Lemma bgMem_bytes_length m :
  length (label m) = 5%nat -> length (bgMem_bytes m) = 7%nat.
Proof. intros H. unfold bgMem_bytes. rewrite length_app, H. reflexivity. Qed.

Lemma bgMem_of_bytes_bytes m :
  length (label m) = 5%nat -> is_u16 (bgRef m) ->
  bgMem_of_bytes (bgMem_bytes m) = m.
Proof.
  destruct m as [l r]. cbn [label bgRef]. intros Hl Hr.
  destruct l as [|c0 [|c1 [|c2 [|c3 [|c4 [|]]]]]]; try discriminate.
  unfold bgMem_of_bytes, bgMem_bytes, u8, is_u16 in *. cbn [label bgRef].
  cbn [app take nth]. f_equal.
  rewrite (Z.mod_small (r / 2 ^ 8)).
  - pose proof (Z.div_mod r (2 ^ 8) ltac:(lia)). lia.
  - split; [apply Z.div_pos; lia|apply Z.div_lt_upper_bound; lia].
Qed.

Lemma EEPROMAddy_eq E2END :
  sizeof_bgMem <= E2END < 2 ^ 16 -> EEPROMAddy E2END = E2END - sizeof_bgMem.
Proof.
  unfold EEPROMAddy, sizeof_bgMem. intros H.
  apply u16_small. unfold is_u16. lia.
Qed.

(** The label read back from a well-formed store has five characters. *)
Lemma saved_label_length E2END e :
  eeprom_ok E2END e ->
  length (label (bgMem_of_bytes
                   (EEPROM_get (EEPROMAddy E2END) sizeof_bgMem e))) = 5%nat.
Proof.
  intros [Hr Hlen]. rewrite EEPROMAddy_eq by exact Hr.
  unfold bgMem_of_bytes, EEPROM_get, sizeof_bgMem in *. cbn [label].
  rewrite !length_take, length_drop. lia.
Qed.

Lemma strcmp_bgID_refl : strcmp bgID bgID = Some 0.
Proof. reflexivity. Qed.

Lemma strcmp_bgID_differs l :
  length l = 5%nat -> l <> bgID ->
  exists r, strcmp bgID l = Some r /\ r <> 0.
Proof.
  destruct l as [|c0 [|c1 [|c2 [|c3 [|c4 [|]]]]]]; try discriminate.
  intros _ Hne. unfold bgID in *. cbn [strcmp].
  destruct (Z.eqb_spec 98 c0) as [<-|]; [|eexists; split; [reflexivity|lia]].
  destruct (Z.eqb_spec 103 c1) as [<-|]; [|eexists; split; [reflexivity|lia]].
  destruct (Z.eqb_spec 73 c2) as [<-|]; [|eexists; split; [reflexivity|lia]].
  destruct (Z.eqb_spec 68 c3) as [<-|]; [|eexists; split; [reflexivity|lia]].
  destruct (Z.eqb_spec 0 c4) as [<-|]; [|eexists; split; [reflexivity|lia]].
  contradiction Hne. reflexivity.
Qed.

(** Loading when the stored label is the tag adopts the stored constant. *)
Lemma fromEEPROM_present E2END d :
  label (bgEEPROMID d) = bgID ->
  label (bgMem_of_bytes
           (EEPROM_get (EEPROMAddy E2END) sizeof_bgMem (eeprom d))) = bgID ->
  fromEEPROM E2END d
  = Some (true,
          Device (bgRef (bgMem_of_bytes
                           (EEPROM_get (EEPROMAddy E2END) sizeof_bgMem
                              (eeprom d))))
            (bgEEPROMID d) (eeprom d) (console d)).
Proof.
  intros Hid Hsaved. unfold fromEEPROM.
  rewrite Hid, Hsaved, strcmp_bgID_refl. reflexivity.
Qed.

(** Loading when the stored label is anything else changes nothing. *)
Lemma fromEEPROM_absent E2END d :
  eeprom_ok E2END (eeprom d) ->
  label (bgEEPROMID d) = bgID ->
  label (bgMem_of_bytes
           (EEPROM_get (EEPROMAddy E2END) sizeof_bgMem (eeprom d))) <> bgID ->
  fromEEPROM E2END d = Some (false, d).
Proof.
  intros Hok Hid Hsaved. unfold fromEEPROM. rewrite Hid.
  destruct (strcmp_bgID_differs _ (saved_label_length _ _ Hok) Hsaved)
    as (r & -> & Hr).
  destruct (Z.eqb_spec r 0) as [|_]; [contradiction|reflexivity].
Qed.

(** What [toEEPROM] leaves in the record's cells. *)
Lemma toEEPROM_stored E2END d :
  eeprom_ok E2END (eeprom d) ->
  label (bgEEPROMID d) = bgID -> is_u16 (bgRefmV d) ->
  bgMem_of_bytes
    (EEPROM_get (EEPROMAddy E2END) sizeof_bgMem (eeprom (toEEPROM E2END d)))
  = BgMem bgID (bgRefmV d).
Proof.
  intros [Hr Hlen] Hid Hu. unfold toEEPROM. cbn [eeprom]. rewrite Hid.
  set (m := BgMem bgID (bgRefmV d)).
  assert (Hm : length (bgMem_bytes m) = 7%nat)
    by (apply bgMem_bytes_length; reflexivity).
  change sizeof_bgMem with (Z.of_nat 7). rewrite <- Hm.
  rewrite EEPROM_get_put.
  - apply bgMem_of_bytes_bytes; [reflexivity|exact Hu].
  - rewrite EEPROMAddy_eq by exact Hr. unfold sizeof_bgMem in *. lia.
  - rewrite EEPROMAddy_eq, Hm by exact Hr. unfold sizeof_bgMem in *. lia.
Qed.

(** A store whose cells are all in the erased state (0xFF) holds no tag. *)
Lemma erased_label E2END :
  sizeof_bgMem <= E2END < 2 ^ 16 ->
  label (bgMem_of_bytes
           (EEPROM_get (EEPROMAddy E2END) sizeof_bgMem
              (replicate (Z.to_nat (E2END + 1)) 255))) <> bgID.
Proof.
  intros Hr. rewrite EEPROMAddy_eq by exact Hr.
  unfold bgMem_of_bytes, EEPROM_get, sizeof_bgMem in *. cbn [label].
  rewrite drop_replicate, !take_replicate.
  replace (5 `min` (Z.to_nat 7 `min` (Z.to_nat (E2END + 1) - Z.to_nat (E2END - 7))))%nat
    with 5%nat by lia.
  discriminate.
Qed.

(** C9.  After [toEEPROM] with the reference constant 1125, [fromEEPROM]
    on the same store (whatever the constant in memory is by then)
    returns true and sets the constant to 1125.  [fromEEPROM] on a store
    whose record cells do not hold the tag "bgID" (and its terminator),
    in particular on a store that was never written, returns false and
    leaves the object as it was. *)
Theorem eeprom_round_trip E2END d d1 d2 d3 :
  eeprom_ok E2END (eeprom d) -> label (bgEEPROMID d) = bgID ->
  bgRefmV d = 1125 ->
  eeprom d1 = eeprom (toEEPROM E2END d) -> label (bgEEPROMID d1) = bgID ->
  eeprom_ok E2END (eeprom d2) -> label (bgEEPROMID d2) = bgID ->
  label (bgMem_of_bytes
           (EEPROM_get (EEPROMAddy E2END) sizeof_bgMem (eeprom d2))) <> bgID ->
  eeprom d3 = replicate (Z.to_nat (E2END + 1)) 255 ->
  label (bgEEPROMID d3) = bgID ->
  fromEEPROM E2END d1
  = Some (true, Device 1125 (bgEEPROMID d1) (eeprom d1) (console d1))
  /\ fromEEPROM E2END d2 = Some (false, d2)
  /\ fromEEPROM E2END d3 = Some (false, d3).
Proof.
  intros Hok Hid Hv He1 Hid1 Hok2 Hid2 Hne2 He3 Hid3.
  assert (Hst := toEEPROM_stored E2END d Hok Hid).
  rewrite Hv in Hst. specialize (Hst ltac:(unfold is_u16; lia)).
  rewrite <- He1 in Hst.
  repeat split.
  - rewrite fromEEPROM_present; [|exact Hid1|rewrite Hst; reflexivity].
    rewrite Hst. reflexivity.
  - apply fromEEPROM_absent; assumption.
  - destruct Hok as [Hr _].
    apply fromEEPROM_absent; [|exact Hid3|].
    + rewrite He3. split; [exact Hr|]. rewrite length_replicate.
      unfold sizeof_bgMem in Hr. lia.
    + rewrite He3. apply erased_label. exact Hr.
Qed.

Lemma eeprom_round_trip_witness :
  let erased := replicate 1024%nat 255 in
  let d := Device 1125 bgEEPROMID_init erased [] in
  let d1 := Device BGREFmV bgEEPROMID_init (eeprom (toEEPROM 1023 d)) [] in
  let d2 := Device BGREFmV bgEEPROMID_init (replicate 1024%nat 0) [] in
  let d3 := Device BGREFmV bgEEPROMID_init erased [] in
  fromEEPROM 1023 d1
  = Some (true, Device 1125 (bgEEPROMID d1) (eeprom d1) (console d1))
  /\ fromEEPROM 1023 d2 = Some (false, d2)
  /\ fromEEPROM 1023 d3 = Some (false, d3).
Proof.
  intros erased d d1 d2 d3.
  assert (Hok : forall x, eeprom_ok 1023 (replicate 1024%nat x))
    by (intros x; unfold eeprom_ok, sizeof_bgMem; split; [lia|reflexivity]).
  apply (eeprom_round_trip 1023 d d1 d2 d3).
  - apply Hok.
  - reflexivity.
  - reflexivity.
  - reflexivity.
  - reflexivity.
  - apply Hok.
  - reflexivity.
  - vm_compute. discriminate.
  - reflexivity.
  - reflexivity.
Defined.

(** A fresh object on a store that holds a saved record starts with the
    saved constant; on an erased store it keeps [BGREFmV]. *)
Lemma PrecisionADC_default_after_save E2END d d1 :
  eeprom_ok E2END (eeprom d) -> label (bgEEPROMID d) = bgID ->
  is_u16 (bgRefmV d) ->
  eeprom d1 = eeprom (toEEPROM E2END d) -> label (bgEEPROMID d1) = bgID ->
  exists d', PrecisionADC_default E2END d1 = Some d' /\
             bgRefmV d' = bgRefmV d.
Proof.
  intros Hok Hid Hu He1 Hid1.
  pose proof (toEEPROM_stored E2END d Hok Hid Hu) as Hst.
  rewrite <- He1 in Hst.
  unfold PrecisionADC_default.
  rewrite fromEEPROM_present;
    cbn [setBGRef bgEEPROMID eeprom]; [|exact Hid1|rewrite Hst; reflexivity].
  eexists. split; [reflexivity|]. cbn [bgRefmV]. rewrite Hst. reflexivity.
Qed.

(** ** Calibration loop *)

Lemma Serial_print_inv items d :
  bgRefmV (Serial_print items d) = bgRefmV d /\
  bgEEPROMID (Serial_print items d) = bgEEPROMID d /\
  eeprom (Serial_print items d) = eeprom d /\
  console (Serial_print items d) = console d ++ items.
Proof. repeat split. Qed.

Lemma step_space_in_menu E2END p d l :
  state l = FT_STATE_MENU -> key p = KEY_SPC ->
  calibrateBG_step E2END p d l
  = Continue d (Locals FT_STATE_TUNE (nextUpdate l)).
Proof.
  intros Hs Hk. unfold calibrateBG_step. rewrite Hk, Hs. reflexivity.
Qed.

Lemma step_refresh E2END p d l vcc :
  state l = FT_STATE_TUNE -> key p = NO_KEY ->
  nextUpdate l <= clock p ->
  readVcc (bgRefmV d) (sample p) = Some vcc ->
  calibrateBG_step E2END p d l
  = Continue
      (Serial_print
         [Text "Vcc: "; Num vcc; Text "mv, BG ref: "; Num (bgRefmV d);
          Text ("mV" ++ nlcr)] d)
      (Locals FT_STATE_TUNE (u32 (clock_after p + updateFreq))).
Proof.
  intros Hs Hk Ht Hv. unfold calibrateBG_step. rewrite Hk, Hs.
  cbn [Z.eqb NO_KEY Pos.eqb ft_state_eqb andb].
  destruct (Z.leb_spec (nextUpdate l) (clock p)) as [_|]; [|lia].
  cbn [bgRefmV Serial_print]. rewrite Hv.
  unfold Serial_print. cbn [bgRefmV bgEEPROMID eeprom console].
  rewrite <- app_assoc. reflexivity.
Qed.

Lemma step_up_in_tune E2END p d l :
  state l = FT_STATE_TUNE -> key p = KEY_AUP ->
  calibrateBG_step E2END p d l
  = Continue
      (setBGRef (bgRefmV d + 1) (Serial_print [Text ("[up]" ++ crnl)] d)) l.
Proof.
  intros Hs Hk. unfold calibrateBG_step. rewrite Hk, Hs. reflexivity.
Qed.

Lemma step_escape_in_tune E2END p d l :
  state l = FT_STATE_TUNE -> key p = KEY_ESC ->
  calibrateBG_step E2END p d l
  = Continue (Serial_print [Text menu] d)
      (Locals FT_STATE_MENU (nextUpdate l)).
Proof.
  intros Hs Hk. unfold calibrateBG_step. rewrite Hk, Hs. reflexivity.
Qed.

Lemma step_escape_in_menu E2END p d l :
  state l = FT_STATE_MENU -> key p = KEY_ESC ->
  calibrateBG_step E2END p d l = Exit d.
Proof.
  intros Hs Hk. unfold calibrateBG_step. rewrite Hk, Hs. reflexivity.
Qed.

(** C10.  In Menu, the key [KEY_1] with no valid record in the EEPROM
    (the record cells do not hold the tag) keeps the loop running with
    the same locals, hence still in Menu, prints the "No saved bandgap
    value found" message and nothing else, and leaves the reference
    constant, the EEPROM and [bgEEPROMID] as they were. *)
Theorem calibrateBG_load_absent E2END p d l :
  state l = FT_STATE_MENU -> key p = KEY_1 ->
  eeprom_ok E2END (eeprom d) -> label (bgEEPROMID d) = bgID ->
  label (bgMem_of_bytes
           (EEPROM_get (EEPROMAddy E2END) sizeof_bgMem (eeprom d))) <> bgID ->
  exists d',
    calibrateBG_step E2END p d l = Continue d' l /\
    state l = FT_STATE_MENU /\
    console d' = console d ++ [Text msg_not_found] /\
    bgRefmV d' = bgRefmV d /\
    eeprom d' = eeprom d /\
    bgEEPROMID d' = bgEEPROMID d.
Proof.
  intros Hs Hk Hok Hid Hne.
  exists (Serial_print [Text msg_not_found] d).
  split; [|repeat split; exact Hs].
  unfold calibrateBG_step. rewrite Hk, Hs.
  cbn [Z.eqb KEY_1 NO_KEY KEY_SPC KEY_ESC KEY_q KEY_2 orb andb negb
       ft_state_eqb].
  rewrite (fromEEPROM_absent E2END d Hok Hid Hne). reflexivity.
Qed.

Lemma calibrateBG_load_absent_witness :
  let d := Device BGREFmV bgEEPROMID_init (replicate 1024%nat 255) [] in
  let l := Locals FT_STATE_MENU 1000 in
  exists d',
    calibrateBG_step 1023 (Poll KEY_1 40 0 40) d l = Continue d' l /\
    state l = FT_STATE_MENU /\
    console d' = console d ++ [Text msg_not_found] /\
    bgRefmV d' = bgRefmV d /\
    eeprom d' = eeprom d /\
    bgEEPROMID d' = bgEEPROMID d.
Proof.
  intros d l.
  apply (calibrateBG_load_absent 1023 (Poll KEY_1 40 0 40) d l).
  - reflexivity.
  - reflexivity.
  - unfold eeprom_ok, sizeof_bgMem. split; [lia|reflexivity].
  - reflexivity.
  - vm_compute. discriminate.
Defined.

Lemma calibrateBG_loop_app E2END ps qs d l :
  calibrateBG_loop E2END (ps ++ qs) d l
  = match calibrateBG_loop E2END ps d l with
    | Continue d' l' => calibrateBG_loop E2END qs d' l'
    | r => r
    end.
Proof.
  revert d l. induction ps as [|p ps IH]; intros d l; cbn [app calibrateBG_loop].
  - reflexivity.
  - destruct (calibrateBG_step E2END p d l); try reflexivity. apply IH.
Qed.

(** Any number of "up" keys in Tuning: the loop stays in Tuning and the
    reference constant grows by the number of keys, as long as it stays
    below 2^16. *)
Lemma calibrateBG_loop_ups E2END ps d l :
  state l = FT_STATE_TUNE ->
  Forall (fun p => key p = KEY_AUP) ps ->
  0 <= bgRefmV d -> bgRefmV d + Z.of_nat (length ps) < 2 ^ 16 ->
  exists d',
    calibrateBG_loop E2END ps d l = Continue d' l /\
    bgRefmV d' = bgRefmV d + Z.of_nat (length ps) /\
    eeprom d' = eeprom d /\ bgEEPROMID d' = bgEEPROMID d.
Proof.
  intros Hs Hps. revert d.
  induction Hps as [|p ps Hp _ IH]; intros d H0 Hlt.
  - exists d. cbn [calibrateBG_loop length]. repeat split. lia.
  - cbn [length] in Hlt. cbn [calibrateBG_loop].
    rewrite (step_up_in_tune E2END p d l Hs Hp).
    set (d1 := setBGRef _ _).
    assert (Hd1 : bgRefmV d1 = bgRefmV d + 1).
    { subst d1. unfold setBGRef. cbn [bgRefmV Serial_print].
      apply u16_small. unfold is_u16. lia. }
    destruct (IH d1) as (d' & Hrun & Hv & He & Hi); [lia|lia|].
    exists d'. split; [exact Hrun|]. split; [|split].
    + rewrite Hv, Hd1. cbn [length]. lia.
    + rewrite He. reflexivity.
    + rewrite Hi. reflexivity.
Qed.

(** C8.  [calibrateBG] entered at time [t0] starts in Menu.  A space key
    moves it to Tuning.  A following poll without key, taken at least
    [updateFreq] = 1000 ms after entry (the last time the display was
    written), with a non-zero bandgap sample, prints exactly one line:
    the supply estimate [readVcc] and the reference constant.  Five "up"
    keys then raise the reference constant by exactly 5 (it is assumed to
    stay within 16 bits).  An escape key returns to Menu, and a second
    escape key leaves the loop. *)
Theorem calibrateBG_scenario E2END t0 d p_spc p_tick ups p_esc1 p_esc2 :
  0 <= bgRefmV d -> bgRefmV d + 5 < 2 ^ 16 ->
  0 <= t0 ->
  key p_spc = KEY_SPC ->
  key p_tick = NO_KEY ->
  t0 + updateFreq <= clock p_tick < 2 ^ 32 ->
  sample p_tick <> 0 ->
  length ups = 5%nat -> Forall (fun p => key p = KEY_AUP) ups ->
  key p_esc1 = KEY_ESC -> key p_esc2 = KEY_ESC ->
  exists vcc d1 l1 d2 l2 d3 l3 d4 l4,
    let d0 := fst (calibrateBG_entry t0 d) in
    let l0 := snd (calibrateBG_entry t0 d) in
    state l0 = FT_STATE_MENU /\
    calibrateBG_step E2END p_spc d0 l0 = Continue d1 l1 /\
    state l1 = FT_STATE_TUNE /\
    readVcc (bgRefmV d) (sample p_tick) = Some vcc /\
    calibrateBG_step E2END p_tick d1 l1 = Continue d2 l2 /\
    state l2 = FT_STATE_TUNE /\
    console d2
    = console d1
      ++ [Text "Vcc: "; Num vcc; Text "mv, BG ref: "; Num (bgRefmV d);
          Text ("mV" ++ nlcr)] /\
    calibrateBG_loop E2END ups d2 l2 = Continue d3 l3 /\
    state l3 = FT_STATE_TUNE /\
    bgRefmV d3 = bgRefmV d + 5 /\
    calibrateBG_step E2END p_esc1 d3 l3 = Continue d4 l4 /\
    state l4 = FT_STATE_MENU /\
    calibrateBG_step E2END p_esc2 d4 l4 = Exit d4 /\
    calibrateBG E2END t0 (p_spc :: p_tick :: ups ++ [p_esc1; p_esc2]) d
    = Exit d4.
Proof.
  intros H0 H5 Ht0 Hspc Htick Hclock Hsample Hlen Hups Hesc1 Hesc2.
  unfold updateFreq in Hclock.
  destruct (readVcc (bgRefmV d) (sample p_tick)) as [vcc|] eqn:Hvcc;
    [|rewrite readVcc_nonzero in Hvcc by exact Hsample; discriminate].
  set (d0 := Serial_print [Text menu] d).
  set (l0 := Locals FT_STATE_MENU (u32 (t0 + updateFreq))).
  set (l1 := Locals FT_STATE_TUNE (nextUpdate l0)).
  set (line := [Text "Vcc: "; Num vcc; Text "mv, BG ref: "; Num (bgRefmV d);
                Text ("mV" ++ nlcr)%string]).
  set (d2 := Serial_print line d0).
  set (l2 := Locals FT_STATE_TUNE (u32 (clock_after p_tick + updateFreq))).
  assert (Hnext : nextUpdate l1 <= clock p_tick).
  { subst l1 l0. cbn [nextUpdate]. unfold updateFreq.
    rewrite u32_small by (unfold is_u32; lia). lia. }
  assert (S1 : calibrateBG_step E2END p_spc d0 l0 = Continue d0 l1)
    by (apply step_space_in_menu; [reflexivity|exact Hspc]).
  assert (S2 : calibrateBG_step E2END p_tick d0 l1 = Continue d2 l2)
    by (rewrite (step_refresh E2END p_tick d0 l1 vcc eq_refl Htick Hnext Hvcc);
        reflexivity).
  destruct (calibrateBG_loop_ups E2END ups d2 l2) as (d3 & S3 & Hv3 & _ & _);
    [reflexivity|exact Hups|exact H0|cbn [bgRefmV d2 d0 Serial_print]; lia|].
  rewrite Hlen in Hv3. cbn [bgRefmV d2 d0 Serial_print] in Hv3.
  set (d4 := Serial_print [Text menu] d3).
  set (l4 := Locals FT_STATE_MENU (nextUpdate l2)).
  assert (S4 : calibrateBG_step E2END p_esc1 d3 l2 = Continue d4 l4)
    by (apply step_escape_in_tune; [reflexivity|exact Hesc1]).
  assert (S5 : calibrateBG_step E2END p_esc2 d4 l4 = Exit d4)
    by (apply step_escape_in_menu; [reflexivity|exact Hesc2]).
  exists vcc, d0, l1, d2, l2, d3, l2, d4, l4.
  cbn [calibrateBG_entry fst snd]. fold d0 l0.
  repeat (split; [first [reflexivity | assumption | lia]|]).
  unfold calibrateBG. cbn [calibrateBG_entry]. fold d0 l0.
  cbn [calibrateBG_loop]. rewrite S1, S2, calibrateBG_loop_app, S3.
  cbn [calibrateBG_loop]. rewrite S4, S5. reflexivity.
Qed.

Lemma calibrateBG_scenario_witness :
  let d := Device BGREFmV bgEEPROMID_init (replicate 1024%nat 255) [] in
  let up := Poll KEY_AUP 1300 0 1300 in
  exists d4,
    calibrateBG 1023 0
      [Poll KEY_SPC 200 0 200; Poll NO_KEY 1200 230 1203;
       up; up; up; up; up;
       Poll KEY_ESC 2000 0 2000; Poll KEY_ESC 2100 0 2100] d
    = Exit d4.
Proof.
  intros d up.
  destruct (calibrateBG_scenario 1023 0 d
              (Poll KEY_SPC 200 0 200) (Poll NO_KEY 1200 230 1203)
              [up; up; up; up; up]
              (Poll KEY_ESC 2000 0 2000) (Poll KEY_ESC 2100 0 2100))
    as (vcc & d1 & l1 & d2 & l2 & d3 & l3 & d4 & l4 & H).
  - subst d. cbn [bgRefmV]. unfold BGREFmV. lia.
  - subst d. cbn [bgRefmV]. unfold BGREFmV. lia.
  - lia.
  - reflexivity.
  - reflexivity.
  - unfold updateFreq. cbn [clock]. lia.
  - cbn [sample]. lia.
  - reflexivity.
  - repeat constructor.
  - reflexivity.
  - reflexivity.
  - exists d4. apply H.
Defined.

(** * Further properties of the library *)

(** ** Supply estimate and analog readings *)

Lemma readVcc_range r a v : readVcc r a = Some v -> is_u16 v.
Proof.
  unfold readVcc. destruct (a =? 0); [discriminate|].
  intros [= <-]. apply u16_range.
Qed.

(** X2.  Raising the reference constant by one (an "up" key during
    calibration) raises the supply estimate by [1024 / bgVal] or by one
    more: for a sample in [19, 1024] the estimate grows strictly. *)
Theorem readVcc_step_in_reference r a :
  19 <= a <= 1024 -> 0 <= r < 1200 ->
  exists v v',
    readVcc r a = Some v /\ readVcc (r + 1) a = Some v' /\
    v + 1024 / a <= v' <= v + 1024 / a + 1 /\ v < v'.
Proof.
  intros Ha Hr.
  exists (r * 1024 / a), ((r + 1) * 1024 / a).
  rewrite !readVcc_floor by lia.
  split; [reflexivity|]. split; [reflexivity|].
  pose proof (Z.div_mod (r * 1024) a ltac:(lia)) as E1.
  pose proof (Z.mod_pos_bound (r * 1024) a ltac:(lia)) as B1.
  pose proof (Z.div_mod 1024 a ltac:(lia)) as E2.
  pose proof (Z.mod_pos_bound 1024 a ltac:(lia)) as B2.
  pose proof (Z.div_mod ((r + 1) * 1024) a ltac:(lia)) as E3.
  pose proof (Z.mod_pos_bound ((r + 1) * 1024) a ltac:(lia)) as B3.
  assert (H1 : 1 <= 1024 / a) by (apply Z.div_le_lower_bound; lia).
  set (q1 := r * 1024 / a) in *. set (q2 := 1024 / a) in *.
  set (q3 := (r + 1) * 1024 / a) in *.
  assert (Hlo : q1 + q2 <= q3) by nia.
  assert (Hhi : q3 <= q1 + q2 + 1) by nia.
  lia.
Qed.

Lemma readVcc_step_in_reference_witness :
  19 <= 230 <= 1024 /\ 0 <= 1100 < 1200 /\
  exists v v',
    readVcc 1100 230 = Some v /\ readVcc (1100 + 1) 230 = Some v' /\
    v + 1024 / 230 <= v' <= v + 1024 / 230 + 1 /\ v < v'.
Proof.
  split; [lia|]. split; [lia|].
  apply (readVcc_step_in_reference 1100 230); lia.
Defined.

Lemma Arduino_map_scale adc vcc :
  0 <= adc <= 1023 -> is_u16 vcc ->
  Arduino_map adc 0 1023 0 vcc = Some (adc * vcc / 1023).
Proof.
  unfold is_u16. intros Ha Hv.
  assert (Hs : forall z, - 2 ^ 31 <= z < 2 ^ 31 -> s32 z = Some z).
  { intros z Hz. unfold s32.
    destruct (Z.leb_spec (- 2 ^ 31) z); [|lia].
    destruct (Z.ltb_spec z (2 ^ 31)); [reflexivity|lia]. }
  assert (Hq : 0 <= adc * vcc / 1023 <= vcc).
  { split; [apply Z.div_pos; nia|].
    apply Z.div_le_upper_bound; nia. }
  unfold Arduino_map.
  rewrite !Z.sub_0_r, (Hs adc), (Hs vcc), (Hs 1023) by lia.
  rewrite (Hs (adc * vcc)) by nia.
  cbn [Z.eqb]. rewrite Z.quot_div_nonneg by nia.
  rewrite (Hs (adc * vcc / 1023)) by lia.
  rewrite Z.add_0_r. apply Hs. lia.
Qed.

Lemma analogVoltage_value r a adc vcc :
  readVcc r a = Some vcc -> 0 <= adc <= 1023 ->
  analogVoltage r a adc = Some (adc * vcc / 1023) /\
  0 <= adc * vcc / 1023 <= vcc.
Proof.
  intros Hv Hadc.
  pose proof (readVcc_range _ _ _ Hv) as Hr. unfold is_u16 in Hr.
  assert (Hq : 0 <= adc * vcc / 1023 <= vcc).
  { split; [apply Z.div_pos; nia|].
    apply Z.div_le_upper_bound; nia. }
  split; [|exact Hq].
  unfold analogVoltage. rewrite Hv.
  rewrite (u16_small adc) by (unfold is_u16; lia).
  rewrite Arduino_map_scale by (unfold is_u16; lia).
  rewrite u16_small by (unfold is_u16; lia). reflexivity.
Qed.

Lemma readVcc_defined r a : a <> 0 -> exists vcc, readVcc r a = Some vcc.
Proof. intros Ha. rewrite readVcc_nonzero by exact Ha. eauto. Qed.

(** X3.  For a 10-bit reading [adc] and a non-zero bandgap sample,
    [analogVoltage] returns [adc * vcc / 1023] (truncated), where [vcc]
    is what [readVcc] returns: 0 for the reading 0, [vcc] itself for the
    reading 1023, and never more than [vcc]. *)
Theorem analogVoltage_scale r a adc :
  a <> 0 -> 0 <= adc <= 1023 ->
  exists vcc mV,
    readVcc r a = Some vcc /\
    analogVoltage r a adc = Some mV /\
    mV = adc * vcc / 1023 /\
    0 <= mV <= vcc /\
    (adc = 0 -> mV = 0) /\
    (adc = 1023 -> mV = vcc).
Proof.
  intros Ha Hadc.
  destruct (readVcc_defined r a Ha) as [vcc Hv].
  destruct (analogVoltage_value r a adc vcc Hv Hadc) as [E Hq].
  exists vcc, (adc * vcc / 1023).
  repeat split; try assumption; try lia.
  - intros ->. reflexivity.
  - intros ->. rewrite Z.mul_comm. apply Z.div_mul. lia.
Qed.

Lemma analogVoltage_scale_witness :
  230 <> 0 /\ 0 <= 512 <= 1023 /\
  exists vcc mV,
    readVcc 1100 230 = Some vcc /\
    analogVoltage 1100 230 512 = Some mV /\
    mV = 512 * vcc / 1023 /\
    0 <= mV <= vcc /\
    (512 = 0 -> mV = 0) /\
    (512 = 1023 -> mV = vcc).
Proof.
  split; [lia|]. split; [lia|].
  apply (analogVoltage_scale 1100 230 512); lia.
Defined.

(** X4.  With the same supply estimate, a larger reading never gives a
    smaller voltage. *)
Theorem analogVoltage_monotone r a adc1 adc2 :
  a <> 0 -> 0 <= adc1 -> adc1 <= adc2 -> adc2 <= 1023 ->
  exists mV1 mV2,
    analogVoltage r a adc1 = Some mV1 /\
    analogVoltage r a adc2 = Some mV2 /\ mV1 <= mV2.
Proof.
  intros Ha H1 H12 H2.
  destruct (readVcc_defined r a Ha) as [vcc Hv].
  destruct (analogVoltage_value r a adc1 vcc Hv ltac:(lia)) as [E1 _].
  destruct (analogVoltage_value r a adc2 vcc Hv ltac:(lia)) as [E2 _].
  pose proof (readVcc_range _ _ _ Hv) as Hr. unfold is_u16 in Hr.
  eexists _, _. split; [exact E1|]. split; [exact E2|].
  apply Z.div_le_mono; [lia|nia].
Qed.

Lemma analogVoltage_monotone_witness :
  230 <> 0 /\ 0 <= 100 /\ 100 <= 900 /\ 900 <= 1023 /\
  exists mV1 mV2,
    analogVoltage 1100 230 100 = Some mV1 /\
    analogVoltage 1100 230 900 = Some mV2 /\ mV1 <= mV2.
Proof.
  repeat (split; [lia|]).
  apply (analogVoltage_monotone 1100 230 100 900); lia.
Defined.

(** X1.  A 10-bit conversion with a non-zero result, read from the two
    data registers, gives the supply estimate
    [bgRefmV * 1024 / (256 * ADCH + ADCL)] reduced to 16 bits; the result
    is always a [uint16_t] value. *)
Theorem readVcc_of_registers r lo hi :
  0 <= r < 2 ^ 16 -> is_u8 lo -> 0 <= hi <= 3 -> 256 * hi + lo <> 0 ->
  readVcc r (bgADC lo hi)
  = Some ((r * 1024 / (256 * hi + lo)) mod 2 ^ 16) /\
  is_u16 ((r * 1024 / (256 * hi + lo)) mod 2 ^ 16).
Proof.
  intros Hr Hlo Hhi Hnz.
  destruct (bgADC_ten_bits lo hi Hlo Hhi) as [-> _].
  unfold is_u8 in Hlo.
  split; [apply readVcc_quotient; lia|].
  apply u16_range.
Qed.

Lemma readVcc_of_registers_witness :
  readVcc 1100 (bgADC 230 0) = Some ((1100 * 1024 / (256 * 0 + 230)) mod 2 ^ 16)
  /\ is_u16 ((1100 * 1024 / (256 * 0 + 230)) mod 2 ^ 16).
Proof.
  apply (readVcc_of_registers 1100 230 0); unfold is_u8; lia.
Defined.

(** ** Key decoder: what a returned key means *)

Lemma keyTab_rows : Forall (fun row => length row = KBUFSZ) keyTab.
Proof. repeat constructor. Qed.

Lemma match_len_full row : forall buf,
  length row = length buf -> match_len row buf = length row -> row = buf.
Proof.
  induction row as [|e row IH]; intros [|b buf] Hlen Hm; try discriminate.
  - reflexivity.
  - cbn [match_len length] in *.
    destruct (Z.eqb_spec e b) as [->|]; [|discriminate].
    f_equal. apply IH; lia.
Qed.

(** The scan keeps the key it was given or picks a row equal to [buf]. *)
Lemma scan_keys_sound rows : forall k buf mk p mk' p',
  Forall (fun row => length row = KBUFSZ) rows ->
  length buf = KBUFSZ ->
  scan_keys rows k buf mk p = (mk', p') ->
  mk' = mk \/
  (k <= mk' < k + Z.of_nat (length rows) /\
   rows !! Z.to_nat (mk' - k) = Some buf).
Proof.
  induction rows as [|row rows IH]; intros k buf mk p mk' p' Hrows Hbuf H;
    cbn [scan_keys] in H.
  - left. congruence.
  - inversion Hrows as [|? ? Hrow Hrows']; subst.
    assert (Hshift : forall m, k + 1 <= m ->
              Z.to_nat (m - k) = S (Z.to_nat (m - (k + 1)))) by (intros; lia).
    destruct (negb (nth 0 buf 0 =? nth 0 row 0)).
    + destruct (IH _ _ _ _ _ _ Hrows' Hbuf H) as [->|[Hr Hl]]; [left; reflexivity|].
      right. cbn [length]. split; [lia|].
      rewrite Hshift by lia. exact Hl.
    + destruct (Nat.eqb_spec (match_len row buf) KBUFSZ) as [Hfull|_].
      * destruct (IH _ _ _ _ _ _ Hrows' Hbuf H) as [->|[Hr Hl]].
        -- right. cbn [length]. split; [lia|].
           rewrite Z.sub_diag. change (Some row = Some buf).
           f_equal. apply match_len_full; congruence.
        -- right. cbn [length]. split; [lia|].
           rewrite Hshift by lia. exact Hl.
      * destruct (IH _ _ _ _ _ _ Hrows' Hbuf H) as [->|[Hr Hl]];
          [left; reflexivity|].
        right. cbn [length]. split; [lia|].
        rewrite Hshift by lia. exact Hl.
Qed.

Lemma match_buffer_sound buf mk p :
  length buf = KBUFSZ -> match_buffer buf = (mk, p) -> names_row mk buf.
Proof.
  intros Hbuf H. unfold match_buffer in H.
  destruct (scan_keys_sound _ _ _ _ _ _ _ keyTab_rows Hbuf H) as [->|[Hr Hl]].
  - left. reflexivity.
  - right. rewrite Z.sub_0_r in Hl. split; [|exact Hl].
    rewrite keyTabLen_rows. lia.
Qed.

Lemma pad_row_length acc :
  (length acc <= KBUFSZ)%nat -> length (pad_row acc) = KBUFSZ.
Proof.
  intros H. unfold pad_row. rewrite length_app, length_replicate. lia.
Qed.

(** Storing a byte in the first free cell appends it to the sequence. *)
Lemma pad_row_store acc b :
  (length acc < KBUFSZ)%nat ->
  <[length acc := b]> (pad_row acc) = pad_row (acc ++ [b]).
Proof.
  intros H. unfold pad_row.
  rewrite insert_app_r_alt by lia. rewrite Nat.sub_diag, length_app.
  cbn [length].
  replace (KBUFSZ - length acc)%nat with (S (KBUFSZ - (length acc + 1)))
    by lia.
  cbn [replicate]. rewrite <- app_assoc. reflexivity.
Qed.

(** A CR or LF is stored in the first free cell and cleared again: the
    buffer is as before. *)
Lemma pad_row_store_clear acc b :
  (length acc < KBUFSZ)%nat ->
  <[length acc := 0]> (<[length acc := b]> (pad_row acc)) = pad_row acc.
Proof.
  intros H. rewrite list_insert_insert_eq. apply list_insert_id.
  unfold pad_row. rewrite lookup_app_r by lia. rewrite Nat.sub_diag.
  replace (KBUFSZ - length acc)%nat with (S (KBUFSZ - (length acc + 1)))
    by lia.
  reflexivity.
Qed.

Lemma keystrokes_cons_eol b bs :
  is_eol b = true -> keystrokes (b :: bs) = keystrokes bs.
Proof. intros H. unfold keystrokes. cbn [List.filter]. rewrite H. reflexivity. Qed.

Lemma keystrokes_cons_key b bs :
  is_eol b = false -> keystrokes (b :: bs) = b :: keystrokes bs.
Proof. intros H. unfold keystrokes. cbn [List.filter]. rewrite H. reflexivity. Qed.

(** The loop invariant behind the decoder: [buf] holds the keystrokes
    kept so far, zero padded, and [matchedKey] names a row equal to it. *)
Lemma readSerial_loop_sound tout inp :
  forall t acc exitAt mk k w',
    (length acc <= KBUFSZ)%nat ->
    names_row mk (pad_row acc) ->
    readSerial_loop tout inp t (pad_row acc) (length acc) exitAt mk
    = Returned k w' ->
    exists consumed,
      inp = consumed ++ pending w' /\
      names_row k (pad_row (acc ++ keystrokes (map snd consumed))).
Proof.
  induction inp as [|[a b] inp IH]; intros t acc exitAt mk k w' Hlen Hmk H;
    cbn [readSerial_loop] in H.
  - injection H as <- <-. exists []. split; [reflexivity|].
    cbn [map keystrokes List.filter]. rewrite app_nil_r. exact Hmk.
  - destruct (negb (Z.max t a <? exitAt)).
    { injection H as <- <-. exists []. split; [reflexivity|].
      cbn [map keystrokes List.filter]. rewrite app_nil_r. exact Hmk. }
    destruct (Nat.ltb_spec (length acc) KBUFSZ) as [Hlt|Hge];
      cbn [negb] in H; [|discriminate].
    change ((b =? CR) || (b =? LF)) with (is_eol b) in H.
    destruct (is_eol b) eqn:Heol.
    + rewrite pad_row_store_clear in H by exact Hlt.
      destruct (IH _ _ _ _ _ _ Hlen Hmk H) as (consumed & -> & Hk).
      exists ((a, b) :: consumed). split; [reflexivity|].
      cbn [map snd]. rewrite keystrokes_cons_eol by exact Heol. exact Hk.
    + rewrite pad_row_store in H by exact Hlt.
      assert (Hlen' : (length (acc ++ [b]) <= KBUFSZ)%nat)
        by (rewrite length_app; cbn [length]; lia).
      destruct (match_buffer (pad_row (acc ++ [b]))) as [mk' partial] eqn:Hscan.
      pose proof (match_buffer_sound _ _ _ (pad_row_length _ Hlen') Hscan)
        as Hmk'.
      assert (Hone : keystrokes (map snd [(a, b)]) = [b])
        by (cbn [map snd]; rewrite keystrokes_cons_key by exact Heol;
            reflexivity).
      destruct (negb (mk' =? NO_KEY) && (partial =? 0)
                && negb (Serial_available (Z.max t a) inp)).
      { injection H as <- <-. exists [(a, b)]. split; [reflexivity|].
        rewrite Hone. exact Hmk'. }
      destruct ((partial =? 0) || Nat.eqb (length acc) KBUFSZ).
      { injection H as <- <-. exists [(a, b)]. split; [reflexivity|].
        left. reflexivity. }
      replace (S (length acc)) with (length (acc ++ [b])) in H
        by (rewrite length_app; cbn [length]; lia).
      destruct (IH _ _ _ _ _ _ Hlen' Hmk' H) as (consumed & -> & Hk).
      exists ((a, b) :: consumed). split; [reflexivity|].
      cbn [map snd]. rewrite keystrokes_cons_key by exact Heol.
      rewrite <- app_assoc in Hk. exact Hk.
Qed.

(** X5.  Whatever [readSerial] returns, it has read a prefix of the
    pending bytes, and a key other than [NO_KEY] is the index of the
    [keyTab] row that spells the keystrokes read (the bytes other than CR
    and LF, zero padded): the decoder never reports a key that was not
    typed. *)
Theorem readSerial_sound tout w k w' :
  readSerial tout w = Returned k w' ->
  exists consumed,
    pending w = consumed ++ pending w' /\
    (k = NO_KEY \/
     (0 <= k < keyTabLen /\
      keyTab !! Z.to_nat k
      = Some (pad_row (keystrokes (map snd consumed))))).
Proof.
  unfold readSerial.
  destruct (negb (Serial_available (now w) (pending w))).
  - intros [= <- <-]. exists []. split; [reflexivity|]. left. reflexivity.
  - intros H.
    apply (readSerial_loop_sound tout (pending w) (now w) [] _ NO_KEY k w')
      in H.
    + exact H.
    + cbn [length]. unfold KBUFSZ. lia.
    + left. reflexivity.
Qed.

Lemma readSerial_sound_witness :
  exists consumed,
    [(0, 27); (10, 91); (20, 65)] = consumed ++ [] /\
    (KEY_AUP = NO_KEY \/
     (0 <= KEY_AUP < keyTabLen /\
      keyTab !! Z.to_nat KEY_AUP
      = Some (pad_row (keystrokes (map snd consumed))))).
Proof.
  apply (readSerial_sound 100 (World 0 [(0, 27); (10, 91); (20, 65)])
           KEY_AUP (World 120 [])).
  reflexivity.
Defined.

(** ** Key decoder: the buffer overrun and the clock *)

Lemma keystrokes_length bs : (length (keystrokes bs) <= length bs)%nat.
Proof. unfold keystrokes. apply List.filter_length_le. Qed.

Lemma keystrokes_app bs1 bs2 :
  keystrokes (bs1 ++ bs2) = keystrokes bs1 ++ keystrokes bs2.
Proof. unfold keystrokes. apply List.filter_app. Qed.

(** When the loop leaves [buf], [KBUFSZ] keystrokes have been kept and one
    more byte has been read. *)
Lemma readSerial_loop_fault tout inp :
  forall t buf i exitAt mk idx w',
    (i <= KBUFSZ)%nat ->
    readSerial_loop tout inp t buf i exitAt mk = BufFault idx w' ->
    exists pre last,
      inp = pre ++ last :: pending w' /\
      (i + length (keystrokes (map snd pre)) = KBUFSZ)%nat.
Proof.
  induction inp as [|[a b] inp IH]; intros t buf i exitAt mk idx w' Hi H;
    cbn [readSerial_loop] in H.
  - discriminate.
  - destruct (negb (Z.max t a <? exitAt)); [discriminate|].
    destruct (Nat.ltb_spec i KBUFSZ) as [Hlt|Hge]; cbn [negb] in H.
    + change ((b =? CR) || (b =? LF)) with (is_eol b) in H.
      destruct (is_eol b) eqn:Heol.
      * destruct (IH _ _ _ _ _ _ _ Hi H) as (pre & last & -> & Hn).
        exists ((a, b) :: pre), last. split; [reflexivity|].
        cbn [map snd]. rewrite keystrokes_cons_eol by exact Heol. exact Hn.
      * destruct (match_buffer (<[i:=b]> buf)) as [mk' partial].
        destruct (negb (mk' =? NO_KEY) && (partial =? 0)
                  && negb (Serial_available (Z.max t a) inp));
          [discriminate|].
        destruct ((partial =? 0) || Nat.eqb i KBUFSZ); [discriminate|].
        destruct (IH _ _ _ _ _ _ _ Hlt H) as (pre & last & -> & Hn).
        exists ((a, b) :: pre), last. split; [reflexivity|].
        cbn [map snd]. rewrite keystrokes_cons_key by exact Heol.
        cbn [length]. lia.
    + injection H as _ <-. exists [], (a, b). split; [reflexivity|].
      cbn [map keystrokes List.filter length]. lia.
Qed.

(** X6.  [readSerial] leaves its buffer only in one way: at index
    [KBUFSZ], the first cell behind the array, when a further byte (of
    any kind) arrives in time after [KBUFSZ] keystrokes have been kept. *)
Theorem readSerial_fault_shape tout w idx w' :
  readSerial tout w = BufFault idx w' ->
  idx = KBUFSZ /\
  exists pre last,
    pending w = pre ++ last :: pending w' /\
    length (keystrokes (map snd pre)) = KBUFSZ.
Proof.
  intros H. split; [exact (readSerial_fault_index _ _ _ _ H)|].
  unfold readSerial in H.
  destruct (negb (Serial_available (now w) (pending w))); [discriminate|].
  apply readSerial_loop_fault in H; [|unfold KBUFSZ; lia].
  destruct H as (pre & last & E & Hn). exists pre, last.
  split; [exact E|]. lia.
Qed.

Lemma readSerial_fault_shape_witness :
  KBUFSZ = KBUFSZ /\
  exists pre last,
    [(0, 27); (10, 91); (20, 67); (30, 27)] = pre ++ last :: [] /\
    length (keystrokes (map snd pre)) = KBUFSZ.
Proof.
  apply (readSerial_fault_shape 100
           (World 0 [(0, 27); (10, 91); (20, 67); (30, 27)])
           KBUFSZ (World 30 [])).
  reflexivity.
Defined.

(** X7.  With at most [KBUFSZ] bytes pending, or fewer than [KBUFSZ]
    keystrokes among the pending bytes, [readSerial] stays inside its
    buffer and returns a key. *)
Theorem readSerial_returns_on_short_input tout w :
  (length (pending w) <= KBUFSZ)%nat \/
  (length (keystrokes (map snd (pending w))) < KBUFSZ)%nat ->
  exists k w', readSerial tout w = Returned k w'.
Proof.
  intros Hshort.
  destruct (readSerial tout w) as [k w'|idx w'] eqn:H; [eauto|].
  exfalso. unfold readSerial in H.
  destruct (negb (Serial_available (now w) (pending w))); [discriminate|].
  apply readSerial_loop_fault in H; [|unfold KBUFSZ; lia].
  destruct H as (pre & last & E & Hn). cbn [Nat.add] in Hn.
  pose proof (keystrokes_length (map snd pre)) as Hle.
  rewrite length_map in Hle.
  rewrite E in Hshort.
  rewrite map_app, keystrokes_app, !length_app in Hshort.
  cbn [length] in Hshort. lia.
Qed.

Lemma readSerial_returns_on_short_input_witness :
  exists k w',
    readSerial 100 (World 0 [(0, 27); (10, 91); (20, 67)]) = Returned k w'.
Proof.
  apply (readSerial_returns_on_short_input 100
           (World 0 [(0, 27); (10, 91); (20, 67)])).
  left. cbn [pending length]. unfold KBUFSZ. lia.
Defined.

Lemma latest_ge t bs : t <= latest t bs.
Proof.
  unfold latest. revert t.
  induction bs as [|[a b] bs IH]; intros t; cbn [map fst fold_left].
  - lia.
  - specialize (IH (Z.max t a)). lia.
Qed.

Lemma u32_le z : 0 <= z -> u32 z <= z.
Proof. intros H. unfold u32. apply Z.mod_le; lia. Qed.

(** The clock through the loop: it never runs backwards, and the loop is
    left no later than [tout] after the last byte it read. *)
Lemma readSerial_loop_clock tout inp :
  forall t buf i exitAt mk,
    0 <= tout -> 0 <= t -> exitAt <= t + tout ->
    let w' := outcome_world (readSerial_loop tout inp t buf i exitAt mk) in
    exists consumed,
      inp = consumed ++ pending w' /\
      t <= now w' <= latest t consumed + tout.
Proof.
  induction inp as [|[a b] inp IH]; intros t buf i exitAt mk Htout Ht Hex;
    cbn [readSerial_loop].
  - exists []. cbn [outcome_world pending now latest map fold_left app].
    split; [reflexivity|lia].
  - destruct (negb (Z.max t a <? exitAt)).
    { exists []. cbn [outcome_world pending now latest map fold_left app].
      split; [reflexivity|lia]. }
    destruct (negb (Nat.ltb i KBUFSZ)).
    { exists [(a, b)].
      cbn [outcome_world pending now latest map fst fold_left app].
      split; [reflexivity|lia]. }
    destruct ((b =? CR) || (b =? LF)).
    + destruct (IH (Z.max t a) (<[i:=0]> (<[i:=b]> buf)) i exitAt mk)
        as (consumed & E & Hc); [lia|lia|lia|].
      exists ((a, b) :: consumed). split.
      * cbn [app]. f_equal. exact E.
      * unfold latest in *. cbn [map fst fold_left]. lia.
    + destruct (match_buffer (<[i:=b]> buf)) as [mk' partial].
      destruct (negb (mk' =? NO_KEY) && (partial =? 0)
                && negb (Serial_available (Z.max t a) inp)).
      { exists [(a, b)].
        cbn [outcome_world pending now latest map fst fold_left app].
        split; [reflexivity|lia]. }
      destruct ((partial =? 0) || Nat.eqb i KBUFSZ).
      { exists [(a, b)].
        cbn [outcome_world pending now latest map fst fold_left app].
        split; [reflexivity|lia]. }
      destruct (IH (Z.max t a) (<[i:=b]> buf) (S i)
                  (u32 (Z.max t a + tout)) mk')
        as (consumed & E & Hc); [lia|lia|apply u32_le; lia|].
      exists ((a, b) :: consumed). split.
      * cbn [app]. f_equal. exact E.
      * unfold latest in *. cbn [map fst fold_left]. lia.
Qed.

(** X8.  [readSerial] reads the pending bytes in order (it leaves a
    suffix of them), never moves the clock back, and is back no later
    than [tout] after the later of the call and the arrival of the last
    byte it read, whether it returns or overruns. *)
Theorem readSerial_clock tout w :
  0 <= tout -> 0 <= now w ->
  let w' := outcome_world (readSerial tout w) in
  exists consumed,
    pending w = consumed ++ pending w' /\
    now w <= now w' <= latest (now w) consumed + tout.
Proof.
  intros Htout Hnow. unfold readSerial.
  destruct (negb (Serial_available (now w) (pending w))).
  - exists []. cbn [outcome_world latest map fold_left app].
    split; [reflexivity|lia].
  - apply readSerial_loop_clock; [lia|lia|apply u32_le; lia].
Qed.

Lemma readSerial_clock_witness :
  let w := World 0 [(0, 27); (10, 91); (20, 65)] in
  let w' := outcome_world (readSerial 100 w) in
  exists consumed,
    pending w = consumed ++ pending w' /\
    now w <= now w' <= latest (now w) consumed + 100.
Proof.
  apply (readSerial_clock 100 (World 0 [(0, 27); (10, 91); (20, 65)]));
    cbn [now]; lia.
Defined.

(** ** Key decoder: which bytes give which key *)

(** Only rows that start with ESC can be matched in part by one byte. *)
Lemma match_buffer_one_byte b :
  b <> 27 -> snd (match_buffer [b; 0; 0]) = 0.
Proof.
  intros Hesc. unfold match_buffer, keyTab.
  cbn [scan_keys nth match_len].
  destruct (Z.eqb_spec b 49) as [->|_]; [reflexivity|]. cbn [negb].
  destruct (Z.eqb_spec b 50) as [->|_]; [reflexivity|]. cbn [negb].
  destruct (Z.eqb_spec b 32) as [->|_]; [reflexivity|]. cbn [negb].
  destruct (Z.eqb_spec b 27) as [|_]; [contradiction|]. cbn [negb].
  destruct (Z.eqb_spec b 113) as [->|_]; [reflexivity|]. cbn [negb].
  destruct (Z.eqb_spec b 106) as [->|_]; [reflexivity|]. cbn [negb].
  destruct (Z.eqb_spec b 107) as [->|_]; reflexivity.
Qed.

(** A first byte that leaves no partial match ends the call at once. *)
Lemma readSerial_no_partial tout t a b rest mk :
  0 < tout -> 0 <= t -> t + tout < 2 ^ 32 -> a <= t ->
  b <> CR -> b <> LF ->
  match_buffer [b; 0; 0] = (mk, 0) ->
  readSerial tout (World t ((a, b) :: rest))
  = Returned (if Serial_available t rest then NO_KEY else mk) (World t rest).
Proof.
  intros Htout Ht Hwrap Ha Hcr Hlf Hscan.
  assert (Hm0 : Z.max t a = t) by lia.
  assert (Hd0 : u32 (t + tout) = t + tout)
    by (apply u32_small; unfold is_u32; lia).
  assert (Hav : (a <=? t) = true) by (apply Z.leb_le; lia).
  unfold readSerial; cbn [now pending Serial_available negb].
  rewrite Hav; cbn [negb].
  rewrite readSerial_loop_accept by (unfold KBUFSZ; lia).
  cbn [replicate KBUFSZ list_insert insert]. rewrite Hscan, Hm0.
  cbn [Z.eqb andb orb].
  destruct (Serial_available t rest); cbn [negb andb].
  - rewrite andb_false_r. reflexivity.
  - rewrite andb_true_r.
    destruct (Z.eqb_spec mk NO_KEY) as [->|_]; reflexivity.
Qed.

(** X9.  A first byte other than ESC, CR and LF is decided at once:
    [readSerial] reads that byte only and returns at the time of the
    call.  It reports the key of the byte (or [NO_KEY] if no row starts
    with it) when nothing else is in the receive buffer, and [NO_KEY] when
    more bytes are buffered. *)
Theorem readSerial_decides_at_once tout t a b rest :
  0 < tout -> 0 <= t -> t + tout < 2 ^ 32 -> a <= t ->
  b <> 27 -> b <> CR -> b <> LF ->
  readSerial tout (World t ((a, b) :: rest))
  = Returned
      (if Serial_available t rest then NO_KEY
       else fst (match_buffer [b; 0; 0]))
      (World t rest).
Proof.
  intros Htout Ht Hwrap Ha Hesc Hcr Hlf.
  apply readSerial_no_partial; try assumption.
  pose proof (match_buffer_one_byte b Hesc) as Hp.
  destruct (match_buffer [b; 0; 0]) as [mk p]. cbn [fst snd] in *.
  rewrite Hp. reflexivity.
Qed.

Lemma readSerial_decides_at_once_witness :
  readSerial 100 (World 7 [(5, 107); (60, 107)])
  = Returned
      (if Serial_available 7 [(60, 107)] then NO_KEY
       else fst (match_buffer [107; 0; 0]))
      (World 7 [(60, 107)]).
Proof.
  apply (readSerial_decides_at_once 100 7 5 107 [(60, 107)]);
    unfold CR, LF; lia.
Defined.

(** X10.  A CR or LF at the head of the receive buffer is transparent when
    more bytes are buffered behind it: the call behaves as if it had been
    made on those bytes. *)
Theorem readSerial_skips_buffered_eol tout t a c rest :
  0 < tout -> 0 <= t -> t + tout < 2 ^ 32 -> a <= t ->
  c = CR \/ c = LF ->
  Serial_available t rest = true ->
  readSerial tout (World t ((a, c) :: rest)) = readSerial tout (World t rest).
Proof.
  intros Htout Ht Hwrap Ha Hc Hrest.
  assert (Hm0 : Z.max t a = t) by lia.
  assert (Hd0 : u32 (t + tout) = t + tout)
    by (apply u32_small; unfold is_u32; lia).
  assert (Hav : (a <=? t) = true) by (apply Z.leb_le; lia).
  assert (Heol : (c =? CR) || (c =? LF) = true).
  { destruct Hc as [->| ->]; reflexivity. }
  unfold readSerial; cbn [now pending Serial_available].
  rewrite Hav, Hrest; cbn [negb].
  cbn [readSerial_loop]. rewrite Hm0, Hd0.
  destruct (Z.ltb_spec t (t + tout)) as [_|]; [|lia].
  cbn [negb KBUFSZ Nat.ltb Nat.leb]. rewrite Heol. reflexivity.
Qed.

Lemma readSerial_skips_buffered_eol_witness :
  readSerial 100 (World 3 [(1, 13); (2, 32)])
  = readSerial 100 (World 3 [(2, 32)]).
Proof.
  apply (readSerial_skips_buffered_eol 100 3 1 13 [(2, 32)]);
    try reflexivity; try lia.
  left. reflexivity.
Defined.

(** The bytes of a row, buffered at the call and followed by silence,
    give the index of the row. *)
Lemma readSerial_types_row tout t a k row rest :
  0 < tout -> 0 <= t -> t + tout < 2 ^ 32 -> a <= t ->
  keyTab !! k = Some row ->
  quiet_until (t + tout) rest ->
  exists t',
    t <= t' <= t + tout /\
    readSerial tout (World t (map (fun b => (a, b)) (row_bytes row) ++ rest))
    = Returned (Z.of_nat k) (World t' rest).
Proof.
  intros Htout Ht Hwrap Ha Hrow Hrest.
  assert (Hsil : Serial_available t rest = false)
    by (apply (Serial_available_quiet t (t + tout)); [lia|exact Hrest]).
  assert (Hone : forall b mk,
            b <> CR -> b <> LF -> match_buffer [b; 0; 0] = (mk, 0) ->
            exists t', t <= t' <= t + tout /\
              readSerial tout (World t ((a, b) :: rest))
              = Returned mk (World t' rest)).
  { intros b mk Hcr Hlf Hscan. exists t. split; [lia|].
    rewrite (readSerial_no_partial tout t a b rest mk) by assumption.
    rewrite Hsil. reflexivity. }
  assert (Hm0 : Z.max t a = t) by lia.
  assert (Hd0 : u32 (t + tout) = t + tout)
    by (apply u32_small; unfold is_u32; lia).
  assert (Hav : (a <=? t) = true) by (apply Z.leb_le; lia).
  assert (Harrow : forall c mk,
            match_buffer [27; 91; c] = (mk, 2) -> c <> CR -> c <> LF ->
            readSerial tout
              (World t ((a, 27) :: (a, 91) :: (a, c) :: rest))
            = Returned mk (World (t + tout) rest)).
  { intros c mk Hscan Hcr Hlf.
    unfold readSerial; cbn [now pending Serial_available negb].
    rewrite Hav; cbn [negb].
    accept_byte match_buffer_esc. rewrite Hm0, Hd0.
    accept_byte match_buffer_esc_bracket. rewrite Hm0, Hd0.
    rewrite readSerial_loop_accept by (unfold KBUFSZ; lia).
    cbn [list_insert insert]. rewrite Hscan.
    destruct (negb (mk =? NO_KEY));
      cbn -[Z.max readSerial_loop u32]; rewrite Hm0, Hd0;
      (rewrite readSerial_loop_timeout by exact Hrest);
      f_equal; f_equal; lia. }
  destruct k as [|[|[|[|[|[|[|[|[|k]]]]]]]]]; [..|discriminate];
    injection Hrow as <-;
    cbn [row_bytes List.filter Z.eqb negb map app];
    try (apply Hone; [unfold CR; lia|unfold LF; lia|reflexivity]).
  - exists (t + tout). split; [lia|].
    apply (Harrow 65 3); [reflexivity|unfold CR; lia|unfold LF; lia].
  - exists (t + tout). split; [lia|].
    apply (Harrow 66 4); [reflexivity|unfold CR; lia|unfold LF; lia].
  - exists (t + tout). split; [lia|].
    unfold readSerial; cbn [now pending Serial_available negb].
    rewrite Hav; cbn [negb].
    accept_byte match_buffer_esc. rewrite Hm0, Hd0.
    rewrite readSerial_loop_timeout by exact Hrest.
    f_equal. f_equal. lia.
Qed.

(** X11.  Every row of [keyTab] can be typed: with exactly the bytes of
    row [k] in the receive buffer at the call and silence until the
    deadline [t + tout], [readSerial] returns [k], at once or when the
    deadline passes. *)
Theorem readSerial_decodes_every_row tout t a k row rest :
  0 < tout -> 0 <= t -> t + tout < 2 ^ 32 -> a <= t ->
  keyTab !! k = Some row ->
  quiet_until (t + tout) rest ->
  exists t',
    t <= t' <= t + tout /\
    readSerial tout (World t (map (fun b => (a, b)) (row_bytes row) ++ rest))
    = Returned (Z.of_nat k) (World t' rest).
Proof. exact (readSerial_types_row tout t a k row rest). Qed.

Lemma readSerial_decodes_every_row_witness :
  exists t',
    0 <= t' <= 0 + 100 /\
    readSerial 100
      (World 0 (map (fun b => (0, b)) (row_bytes [27; 91; 66]) ++ []))
    = Returned (Z.of_nat 4) (World t' []).
Proof.
  apply (readSerial_decodes_every_row 100 0 0 4%nat [27; 91; 66] []);
    try reflexivity; lia.
Defined.

(** ** Persistence: layout, frame and reloading *)



Lemma toEEPROM_eeprom_ok E2END d :
  eeprom_ok E2END (eeprom d) -> eeprom_ok E2END (eeprom (toEEPROM E2END d)).
Proof.
  intros [Hr Hlen]. split; [exact Hr|].
  unfold toEEPROM, EEPROM_put. cbn [eeprom].
  rewrite length_inserts. exact Hlen.
Qed.

Lemma toEEPROM_label E2END d :
  label (bgEEPROMID (toEEPROM E2END d)) = label (bgEEPROMID d).
Proof. reflexivity. Qed.

(** X13.  [toEEPROM] writes the seven cells from [EEPROMAddy] on and
    nothing else: every other cell of the EEPROM (all cells below
    [E2END - 7], and the last cell [E2END]) keeps its value, the size of
    the store, the constant in memory and the console are unchanged. *)
Theorem toEEPROM_frame E2END d :
  eeprom_ok E2END (eeprom d) -> length (label (bgEEPROMID d)) = 5%nat ->
  length (eeprom (toEEPROM E2END d)) = length (eeprom d) /\
  (forall j : nat,
     Z.of_nat j < E2END - sizeof_bgMem \/ E2END <= Z.of_nat j ->
     eeprom (toEEPROM E2END d) !! j = eeprom d !! j) /\
  bgRefmV (toEEPROM E2END d) = bgRefmV d /\
  console (toEEPROM E2END d) = console d.
Proof.
  intros [Hr Hlen] Hl.
  unfold toEEPROM, EEPROM_put. cbn [eeprom bgRefmV console].
  rewrite EEPROMAddy_eq by exact Hr. unfold sizeof_bgMem in *.
  split; [apply length_inserts|]. split; [|split; reflexivity].
  intros j [Hj|Hj].
  - apply list_lookup_inserts_lt. lia.
  - apply list_lookup_inserts_ge.
    rewrite bgMem_bytes_length by exact Hl. lia.
Qed.

Lemma toEEPROM_frame_witness :
  let d := Device 1125 bgEEPROMID_init (replicate 1024%nat 255) [] in
  length (eeprom (toEEPROM 1023 d)) = length (eeprom d) /\
  (forall j : nat,
     Z.of_nat j < 1023 - sizeof_bgMem \/ 1023 <= Z.of_nat j ->
     eeprom (toEEPROM 1023 d) !! j = eeprom d !! j) /\
  bgRefmV (toEEPROM 1023 d) = bgRefmV d /\
  console (toEEPROM 1023 d) = console d.
Proof.
  intros d. apply (toEEPROM_frame 1023 d).
  - unfold eeprom_ok, sizeof_bgMem. split; [lia|reflexivity].
  - reflexivity.
Defined.

(** X14.  On a well-formed store [fromEEPROM] never leaves its arrays and
    decides on the stored label alone: it returns true exactly when the
    five stored characters are the tag, and then sets the constant to the
    stored one; otherwise the object is unchanged.  It never writes the
    EEPROM, the console or [bgEEPROMID]. *)
Theorem fromEEPROM_decides_on_label E2END d :
  eeprom_ok E2END (eeprom d) -> label (bgEEPROMID d) = bgID ->
  let saved :=
    bgMem_of_bytes (EEPROM_get (EEPROMAddy E2END) sizeof_bgMem (eeprom d)) in
  exists b d',
    fromEEPROM E2END d = Some (b, d') /\
    (b = true <-> label saved = bgID) /\
    (b = true -> bgRefmV d' = bgRef saved) /\
    (b = false -> d' = d) /\
    eeprom d' = eeprom d /\ console d' = console d /\
    bgEEPROMID d' = bgEEPROMID d.
Proof.
  intros Hok Hid saved.
  destruct (decide (label saved = bgID)) as [Hyes|Hno].
  - eexists true, _. split; [apply fromEEPROM_present; assumption|].
    fold saved. repeat split; try reflexivity; try discriminate.
    intros _. exact Hyes.
  - exists false, d. split; [apply fromEEPROM_absent; assumption|].
    repeat split; try reflexivity; try discriminate.
    intros Hyes. contradiction.
Qed.

Lemma fromEEPROM_decides_on_label_witness :
  let d := Device BGREFmV bgEEPROMID_init (replicate 1024%nat 255) [] in
  let saved :=
    bgMem_of_bytes (EEPROM_get (EEPROMAddy 1023) sizeof_bgMem (eeprom d)) in
  exists b d',
    fromEEPROM 1023 d = Some (b, d') /\
    (b = true <-> label saved = bgID) /\
    (b = true -> bgRefmV d' = bgRef saved) /\
    (b = false -> d' = d) /\
    eeprom d' = eeprom d /\ console d' = console d /\
    bgEEPROMID d' = bgEEPROMID d.
Proof.
  intros d. apply (fromEEPROM_decides_on_label 1023 d).
  - unfold eeprom_ok, sizeof_bgMem. split; [lia|reflexivity].
  - reflexivity.
Defined.

(** X15.  The last save wins, for every 16-bit constant: after saving
    [r1], then saving [r2], a load on that store returns true with the
    constant [r2], whatever the constant in memory was before the load. *)
Theorem toEEPROM_last_write_wins E2END d r1 r2 x :
  eeprom_ok E2END (eeprom d) -> label (bgEEPROMID d) = bgID ->
  is_u16 r1 -> is_u16 r2 ->
  let d1 := toEEPROM E2END (setBGRef r1 d) in
  let d2 := toEEPROM E2END (setBGRef r2 d1) in
  exists d',
    fromEEPROM E2END (setBGRef x d2) = Some (true, d') /\
    bgRefmV d' = r2 /\ eeprom d' = eeprom d2.
Proof.
  intros Hok Hid H1 H2 d1 d2.
  assert (Hok1 : eeprom_ok E2END (eeprom (setBGRef r2 d1)))
    by (apply (toEEPROM_eeprom_ok E2END (setBGRef r1 d)); exact Hok).
  assert (Hid1 : label (bgEEPROMID (setBGRef r2 d1)) = bgID) by exact Hid.
  assert (Hu : is_u16 (bgRefmV (setBGRef r2 d1)))
    by (cbn [setBGRef bgRefmV]; apply u16_range).
  pose proof (toEEPROM_stored E2END (setBGRef r2 d1) Hok1 Hid1 Hu) as Hst.
  fold d2 in Hst. cbn [setBGRef bgRefmV] in Hst.
  rewrite (u16_small r2 H2) in Hst.
  eexists. split; [|split].
  - rewrite fromEEPROM_present.
    + reflexivity.
    + exact Hid.
    + cbn [setBGRef eeprom]. rewrite Hst. reflexivity.
  - cbn [bgRefmV setBGRef eeprom]. rewrite Hst. reflexivity.
  - reflexivity.
Qed.

Lemma toEEPROM_last_write_wins_witness :
  let d := Device BGREFmV bgEEPROMID_init (replicate 1024%nat 255) [] in
  let d1 := toEEPROM 1023 (setBGRef 1090 d) in
  let d2 := toEEPROM 1023 (setBGRef 1125 d1) in
  exists d',
    fromEEPROM 1023 (setBGRef 1100 d2) = Some (true, d') /\
    bgRefmV d' = 1125 /\ eeprom d' = eeprom d2.
Proof.
  intros d.
  apply (toEEPROM_last_write_wins 1023 d 1090 1125 1100).
  - unfold eeprom_ok, sizeof_bgMem. split; [lia|reflexivity].
  - reflexivity.
  - unfold is_u16. lia.
  - unfold is_u16. lia.
Defined.

(** X16.  The default constructor starts from [BGREFmV] = 1100 and then
    loads: on a store that was never written (all cells erased) the new
    object keeps 1100; on a store where a 16-bit constant was saved the
    new object starts with that constant. *)
Theorem PrecisionADC_default_constant E2END d d1 d2 :
  eeprom_ok E2END (eeprom d) -> label (bgEEPROMID d) = bgID ->
  is_u16 (bgRefmV d) ->
  eeprom d1 = eeprom (toEEPROM E2END d) -> label (bgEEPROMID d1) = bgID ->
  eeprom d2 = replicate (Z.to_nat (E2END + 1)) 255 ->
  label (bgEEPROMID d2) = bgID ->
  (exists d', PrecisionADC_default E2END d1 = Some d' /\
              bgRefmV d' = bgRefmV d) /\
  (exists d', PrecisionADC_default E2END d2 = Some d' /\
              bgRefmV d' = BGREFmV).
Proof.
  intros Hok Hid Hu He1 Hid1 He2 Hid2. split.
  - pose proof (toEEPROM_stored E2END d Hok Hid Hu) as Hst.
    rewrite <- He1 in Hst.
    unfold PrecisionADC_default.
    rewrite fromEEPROM_present;
      cbn [setBGRef bgEEPROMID eeprom]; [|exact Hid1|rewrite Hst; reflexivity].
    eexists. split; [reflexivity|]. cbn [bgRefmV]. rewrite Hst. reflexivity.
  - destruct Hok as [Hr _].
    unfold PrecisionADC_default.
    rewrite fromEEPROM_absent; cbn [setBGRef bgEEPROMID eeprom].
    + eexists. split; [reflexivity|]. reflexivity.
    + rewrite He2. split; [exact Hr|]. rewrite length_replicate.
      unfold sizeof_bgMem in Hr. lia.
    + exact Hid2.
    + rewrite He2. apply erased_label. exact Hr.
Qed.

Lemma PrecisionADC_default_constant_witness :
  let erased := replicate 1024%nat 255 in
  let d := Device 1125 bgEEPROMID_init erased [] in
  let d1 := Device 0 bgEEPROMID_init (eeprom (toEEPROM 1023 d)) [] in
  let d2 := Device 0 bgEEPROMID_init erased [] in
  (exists d', PrecisionADC_default 1023 d1 = Some d' /\
              bgRefmV d' = bgRefmV d) /\
  (exists d', PrecisionADC_default 1023 d2 = Some d' /\
              bgRefmV d' = BGREFmV).
Proof.
  intros erased d d1 d2.
  apply (PrecisionADC_default_constant 1023 d d1 d2); try reflexivity.
  - unfold eeprom_ok, sizeof_bgMem. split; [lia|reflexivity].
  - unfold is_u16. cbn [bgRefmV d]. lia.
Defined.

(** ** Calibration loop: what it changes and how it ends *)

(** Case analysis on the tests of [calibrateBG_step], in source order. *)
Ltac step_cases p l :=
  unfold calibrateBG_step;
  repeat match goal with
         | |- context [key p =? ?k] =>
             destruct (Z.eqb_spec (key p) k);
             cbn [negb andb orb]
         end;
  destruct (state l) eqn:?; cbn [ft_state_eqb negb andb orb].

Lemma fromEEPROM_frame E2END d b d' :
  fromEEPROM E2END d = Some (b, d') ->
  eeprom d' = eeprom d /\ bgEEPROMID d' = bgEEPROMID d /\
  console d' = console d.
Proof.
  unfold fromEEPROM.
  destruct (strcmp _ _) as [r|]; [|discriminate].
  destruct (r =? 0); intros [= <- <-]; repeat split.
Qed.

Lemma step_keeps_eeprom E2END p d l :
  key p <> KEY_2 ->
  eeprom (result_device (calibrateBG_step E2END p d l)) = eeprom d /\
  bgEEPROMID (result_device (calibrateBG_step E2END p d l)) = bgEEPROMID d.
Proof.
  intros Hk. step_cases p l; try contradiction;
    try (split; reflexivity).
  all: try (destruct (nextUpdate l <=? clock p); [|split; reflexivity];
            cbn [bgRefmV Serial_print];
            destruct (readVcc (bgRefmV d) (sample p)); split; reflexivity).
  all: destruct (fromEEPROM E2END d) as [[[|] d']|] eqn:Hf;
    [| |split; reflexivity];
    destruct (fromEEPROM_frame _ _ _ _ Hf) as (He & Hi & _);
    cbn [result_device Serial_print eeprom bgEEPROMID]; split; assumption.
Qed.

(** X17.  The EEPROM is written by the "save" key only: a run of the loop
    over any keys other than [KEY_2], however it ends, leaves every
    EEPROM cell and [bgEEPROMID] as they were. *)
Theorem calibrateBG_writes_only_on_save E2END ps d l :
  Forall (fun p => key p <> KEY_2) ps ->
  eeprom (result_device (calibrateBG_loop E2END ps d l)) = eeprom d /\
  bgEEPROMID (result_device (calibrateBG_loop E2END ps d l)) = bgEEPROMID d.
Proof.
  intros Hps. revert d l.
  induction Hps as [|p ps Hp _ IH]; intros d l; cbn [calibrateBG_loop].
  - split; reflexivity.
  - pose proof (step_keeps_eeprom E2END p d l Hp) as [He Hi].
    destruct (calibrateBG_step E2END p d l) as [d1 l1|d1|d1|d1];
      cbn [result_device] in *; try (split; assumption).
    destruct (IH d1 l1) as [He' Hi']. split; congruence.
Qed.

Lemma calibrateBG_writes_only_on_save_witness :
  let d := Device BGREFmV bgEEPROMID_init (replicate 1024%nat 255) [] in
  let l := Locals FT_STATE_MENU 1000 in
  let ps := [Poll KEY_SPC 10 0 10; Poll KEY_AUP 20 0 20;
             Poll KEY_ESC 30 0 30; Poll KEY_1 40 0 40] in
  eeprom (result_device (calibrateBG_loop 1023 ps d l)) = eeprom d /\
  bgEEPROMID (result_device (calibrateBG_loop 1023 ps d l)) = bgEEPROMID d.
Proof.
  intros d l ps. apply (calibrateBG_writes_only_on_save 1023 ps d l).
  repeat constructor; cbn [key]; unfold KEY_SPC, KEY_AUP, KEY_ESC, KEY_1, KEY_2;
    lia.
Defined.

Lemma step_exit_inv E2END p d l d' :
  calibrateBG_step E2END p d l = Exit d' ->
  state l = FT_STATE_MENU /\ (key p = KEY_ESC \/ key p = KEY_q) /\ d' = d.
Proof.
  step_cases p l; intros H; try discriminate;
    try (injection H as <-; repeat split; auto; fail).
  all: try (destruct (nextUpdate l <=? clock p); [|discriminate];
            cbn [bgRefmV Serial_print] in H;
            destruct (readVcc (bgRefmV d) (sample p)); discriminate).
  all: destruct (fromEEPROM E2END d) as [[[|] d1]|]; discriminate.
Qed.

(** X18.  The loop returns in one way only: on an escape or 'q' key
    received in Menu.  The device it returns is the one before that key:
    leaving prints nothing and changes nothing. *)
Theorem calibrateBG_exit_only_from_menu E2END ps d l d' :
  calibrateBG_loop E2END ps d l = Exit d' ->
  exists ps1 p ps2 l1,
    ps = ps1 ++ p :: ps2 /\
    calibrateBG_loop E2END ps1 d l = Continue d' l1 /\
    state l1 = FT_STATE_MENU /\
    (key p = KEY_ESC \/ key p = KEY_q).
Proof.
  revert d l. induction ps as [|p ps IH]; intros d l H;
    cbn [calibrateBG_loop] in H; [discriminate|].
  destruct (calibrateBG_step E2END p d l) as [d1 l1|d1|d1|d1] eqn:Hstep;
    try discriminate.
  - destruct (IH d1 l1 H) as (ps1 & q & ps2 & l2 & -> & Hrun & Hs & Hk).
    exists (p :: ps1), q, ps2, l2. split; [reflexivity|].
    split; [|split; assumption].
    cbn [calibrateBG_loop]. rewrite Hstep. exact Hrun.
  - injection H as <-.
    destruct (step_exit_inv _ _ _ _ _ Hstep) as (Hs & Hk & ->).
    exists [], p, ps, l. repeat split; assumption.
Qed.

Lemma calibrateBG_exit_only_from_menu_witness :
  let d := Device BGREFmV bgEEPROMID_init (replicate 1024%nat 255) [] in
  let l := Locals FT_STATE_TUNE 1000 in
  let ps := [Poll KEY_ESC 10 0 10; Poll KEY_q 20 0 20; Poll KEY_SPC 30 0 30] in
  exists ps1 p ps2 l1,
    ps = ps1 ++ p :: ps2 /\
    calibrateBG_loop 1023 ps1 d l
    = Continue (Serial_print [Text menu] d) l1 /\
    state l1 = FT_STATE_MENU /\
    (key p = KEY_ESC \/ key p = KEY_q).
Proof.
  intros d l ps.
  apply (calibrateBG_exit_only_from_menu 1023 ps d l).
  reflexivity.
Defined.



Lemma step_tune_key E2END p d l :
  state l = FT_STATE_TUNE -> tune_key p -> is_u16 (bgRefmV d) ->
  exists d',
    calibrateBG_step E2END p d l = Continue d' l /\
    bgRefmV d' = u16 (bgRefmV d + key_delta (key p)) /\
    eeprom d' = eeprom d /\ bgEEPROMID d' = bgEEPROMID d.
Proof.
  intros Hs (Hnk & Hspc & Hesc & Hq) Hu.
  unfold calibrateBG_step, key_delta. rewrite Hs.
  destruct (Z.eqb_spec (key p) NO_KEY); [contradiction|].
  destruct (Z.eqb_spec (key p) KEY_SPC); [contradiction|].
  destruct (Z.eqb_spec (key p) KEY_ESC); [contradiction|].
  destruct (Z.eqb_spec (key p) KEY_q); [contradiction|].
  cbn [orb ft_state_eqb].
  destruct ((key p =? KEY_AUP) || (key p =? KEY_k)).
  { eexists. split; [reflexivity|]. repeat split. }
  destruct ((key p =? KEY_ADN) || (key p =? KEY_j)).
  { eexists. split; [reflexivity|]. repeat split. }
  exists d. split; [reflexivity|]. repeat split.
  rewrite Z.add_0_r. symmetry. apply u16_small. exact Hu.
Qed.

(** A run of keys in Tuning: the loop stays in Tuning and the reference
    constant moves by the net count of up and down keys, modulo 2^16. *)
Lemma calibrateBG_loop_tune E2END ps d l :
  state l = FT_STATE_TUNE -> Forall tune_key ps -> is_u16 (bgRefmV d) ->
  exists d',
    calibrateBG_loop E2END ps d l = Continue d' l /\
    bgRefmV d' = u16 (bgRefmV d + net_adjust ps) /\
    eeprom d' = eeprom d /\ bgEEPROMID d' = bgEEPROMID d.
Proof.
  intros Hs Hps. revert d.
  induction Hps as [|p ps Hp _ IH]; intros d Hu;
    cbn [calibrateBG_loop net_adjust fold_right].
  - exists d. split; [reflexivity|]. repeat split.
    rewrite Z.add_0_r. symmetry. apply u16_small. exact Hu.
  - destruct (step_tune_key E2END p d l Hs Hp Hu) as (d1 & -> & Hv1 & He1 & Hi1).
    destruct (IH d1) as (d' & Hrun & Hv & He & Hi).
    { rewrite Hv1. apply u16_range. }
    exists d'. split; [exact Hrun|]. split; [|split; congruence].
    rewrite Hv, Hv1. fold (net_adjust ps). unfold u16.
    rewrite Z.add_mod_idemp_l by lia. f_equal. lia.
Qed.

(** X20.  In Tuning, any run of keys other than space, escape and 'q'
    keeps the loop in Tuning and moves the reference constant by the
    number of up keys (up arrow, 'k') minus the number of down keys (down
    arrow, 'j'), modulo 2^16; other keys count for nothing.  As many ups
    as downs give the constant back, also across the 16-bit wrap. *)
Theorem calibrateBG_tuning_net E2END ps d l :
  state l = FT_STATE_TUNE -> Forall tune_key ps -> is_u16 (bgRefmV d) ->
  exists d',
    calibrateBG_loop E2END ps d l = Continue d' l /\
    bgRefmV d' = (bgRefmV d + net_adjust ps) mod 2 ^ 16 /\
    (net_adjust ps = 0 -> bgRefmV d' = bgRefmV d) /\
    eeprom d' = eeprom d.
Proof.
  intros Hs Hps Hu.
  destruct (calibrateBG_loop_tune E2END ps d l Hs Hps Hu)
    as (d' & Hrun & Hv & He & _).
  exists d'. repeat split; try assumption.
  intros H0. rewrite Hv, H0, Z.add_0_r. apply u16_small. exact Hu.
Qed.

Lemma calibrateBG_tuning_net_witness :
  let d := Device 65535 bgEEPROMID_init (replicate 1024%nat 255) [] in
  let l := Locals FT_STATE_TUNE 1000 in
  let ps := [Poll KEY_AUP 10 0 10; Poll KEY_k 20 0 20; Poll KEY_1 25 0 25;
             Poll KEY_ADN 30 0 30; Poll KEY_j 40 0 40] in
  exists d',
    calibrateBG_loop 1023 ps d l = Continue d' l /\
    bgRefmV d' = (bgRefmV d + net_adjust ps) mod 2 ^ 16 /\
    (net_adjust ps = 0 -> bgRefmV d' = bgRefmV d) /\
    eeprom d' = eeprom d.
Proof.
  intros d l ps. apply (calibrateBG_tuning_net 1023 ps d l).
  - reflexivity.
  - repeat constructor; cbn [key]; discriminate.
  - unfold is_u16. cbn [bgRefmV d]. lia.
Defined.

Lemma step_save_in_menu E2END p d l :
  state l = FT_STATE_MENU -> key p = KEY_2 ->
  calibrateBG_step E2END p d l
  = Continue (Serial_print [Text msg_saved] (toEEPROM E2END d))
      (Locals FT_STATE_TUNE (nextUpdate l)).
Proof.
  intros Hs Hk. unfold calibrateBG_step. rewrite Hk, Hs. reflexivity.
Qed.

Lemma step_leave_tune E2END p d l :
  state l = FT_STATE_TUNE -> key p = KEY_ESC \/ key p = KEY_q ->
  calibrateBG_step E2END p d l
  = Continue (Serial_print [Text menu] d)
      (Locals FT_STATE_MENU (nextUpdate l)).
Proof.
  intros Hs [Hk|Hk]; unfold calibrateBG_step; rewrite Hk, Hs; reflexivity.
Qed.

Lemma step_load_present E2END p d l :
  state l = FT_STATE_MENU -> key p = KEY_1 ->
  label (bgEEPROMID d) = bgID ->
  label (bgMem_of_bytes
           (EEPROM_get (EEPROMAddy E2END) sizeof_bgMem (eeprom d))) = bgID ->
  calibrateBG_step E2END p d l
  = Continue
      (Serial_print [Text msg_retrieved]
         (Device (bgRef (bgMem_of_bytes
                           (EEPROM_get (EEPROMAddy E2END) sizeof_bgMem
                              (eeprom d))))
            (bgEEPROMID d) (eeprom d) (console d)))
      (Locals FT_STATE_TUNE (nextUpdate l)).
Proof.
  intros Hs Hk Hid Hsaved. unfold calibrateBG_step. rewrite Hk, Hs.
  cbn [Z.eqb KEY_1 NO_KEY KEY_SPC KEY_ESC KEY_q KEY_2 orb andb negb
       ft_state_eqb].
  rewrite (fromEEPROM_present E2END d Hid Hsaved). reflexivity.
Qed.

(** X21.  Save, tune, go back, load: from Menu, the "save" key, then any
    tuning keys, then escape (or 'q') and the "load" key bring the loop
    to Tuning with the reference constant that was saved; the tuning in
    between is discarded and the EEPROM is as the save left it. *)
Theorem calibrateBG_save_tune_reload E2END p_save ps p_esc p_load d l :
  state l = FT_STATE_MENU ->
  eeprom_ok E2END (eeprom d) -> label (bgEEPROMID d) = bgID ->
  is_u16 (bgRefmV d) ->
  key p_save = KEY_2 -> Forall tune_key ps ->
  key p_esc = KEY_ESC \/ key p_esc = KEY_q ->
  key p_load = KEY_1 ->
  exists d' l',
    calibrateBG_loop E2END (p_save :: ps ++ [p_esc; p_load]) d l
    = Continue d' l' /\
    state l' = FT_STATE_TUNE /\
    bgRefmV d' = bgRefmV d /\
    eeprom d' = eeprom (toEEPROM E2END d).
Proof.
  intros Hs Hok Hid Hu Hsave Hps Hesc Hload.
  pose proof (toEEPROM_stored E2END d Hok Hid Hu) as Hst.
  cbn [calibrateBG_loop]. rewrite (step_save_in_menu E2END p_save d l Hs Hsave).
  set (d1 := Serial_print [Text msg_saved] (toEEPROM E2END d)).
  set (l1 := Locals FT_STATE_TUNE (nextUpdate l)).
  destruct (calibrateBG_loop_tune E2END ps d1 l1 eq_refl Hps Hu)
    as (d2 & Hrun & _ & He2 & Hi2).
  rewrite calibrateBG_loop_app, Hrun. cbn [calibrateBG_loop].
  rewrite (step_leave_tune E2END p_esc d2 l1 eq_refl Hesc).
  set (d3 := Serial_print [Text menu] d2).
  assert (He3 : eeprom d3 = eeprom (toEEPROM E2END d)) by exact He2.
  assert (Hi3 : label (bgEEPROMID d3) = bgID)
    by (change (label (bgEEPROMID d2) = bgID); rewrite Hi2; exact Hid).
  rewrite (step_load_present E2END p_load d3
             (Locals FT_STATE_MENU (nextUpdate l1)) eq_refl Hload Hi3)
    by (rewrite He3, Hst; reflexivity).
  eexists _, _. split; [reflexivity|].
  cbn [state bgRefmV eeprom Serial_print]. rewrite He3, Hst.
  repeat split.
Qed.

Lemma calibrateBG_save_tune_reload_witness :
  let d := Device 1125 bgEEPROMID_init (replicate 1024%nat 255) [] in
  let l := Locals FT_STATE_MENU 1000 in
  exists d' l',
    calibrateBG_loop 1023
      (Poll KEY_2 10 0 10
       :: [Poll KEY_AUP 20 0 20; Poll KEY_AUP 30 0 30]
          ++ [Poll KEY_q 40 0 40; Poll KEY_1 50 0 50]) d l
    = Continue d' l' /\
    state l' = FT_STATE_TUNE /\
    bgRefmV d' = bgRefmV d /\
    eeprom d' = eeprom (toEEPROM 1023 d).
Proof.
  intros d l.
  apply (calibrateBG_save_tune_reload 1023 (Poll KEY_2 10 0 10)
           [Poll KEY_AUP 20 0 20; Poll KEY_AUP 30 0 30]
           (Poll KEY_q 40 0 40) (Poll KEY_1 50 0 50) d l).
  - reflexivity.
  - unfold eeprom_ok, sizeof_bgMem. split; [lia|reflexivity].
  - reflexivity.
  - unfold is_u16. cbn [bgRefmV d]. lia.
  - reflexivity.
  - repeat constructor; cbn [key]; discriminate.
  - right. reflexivity.
  - reflexivity.
Defined.

(** X22.  The loop gives up with a division fault in one situation only:
    a poll without key, in Tuning, with the display refresh due, whose
    bandgap sample is 0; "Vcc: " has been printed by then. *)
Theorem calibrateBG_step_div_fault E2END p d l d' :
  calibrateBG_step E2END p d l = DivFault d' <->
  key p = NO_KEY /\ state l = FT_STATE_TUNE /\
  nextUpdate l <= clock p /\ sample p = 0 /\
  d' = Serial_print [Text "Vcc: "] d.
Proof.
  split.
  - step_cases p l; intros H; try discriminate.
    all: try (destruct (fromEEPROM E2END d) as [[[|] d1]|]; discriminate).
    destruct (Z.leb_spec (nextUpdate l) (clock p)); [|discriminate].
    cbn [bgRefmV Serial_print] in H. unfold readVcc in H.
    destruct (Z.eqb_spec (sample p) 0); [|discriminate].
    injection H as <-. repeat split; assumption.
  - intros (Hk & Hs & Ht & Hz & ->).
    unfold calibrateBG_step. rewrite Hk, Hs, Hz.
    cbn [Z.eqb NO_KEY ft_state_eqb andb].
    destruct (Z.leb_spec (nextUpdate l) (clock p)); [reflexivity|lia].
Qed.




(** ** The first revision of the decoder *)

Lemma legacy_loop_timeout tout inp t st exitAt :
  quiet_until exitAt inp ->
  Legacy.readSerial_loop tout inp t st exitAt
  = (Legacy.after_loop st, World (Z.max t exitAt) inp).
Proof.
  destruct inp as [|[a b] inp']; cbn [Legacy.readSerial_loop quiet_until];
    [reflexivity|].
  intros Hq. destruct (Z.ltb_spec (Z.max t a) exitAt); [lia|reflexivity].
Qed.

(** The state stands for the bytes read last; a returned key code is
    spelled by the bytes read last. *)
Lemma legacy_loop_sound tout inp :
  forall t st exitAt acc k w',
    (exists pre, acc = pre ++ Legacy.state_spelling st) ->
    Legacy.readSerial_loop tout inp t st exitAt = (k, w') ->
    exists consumed,
      inp = consumed ++ pending w' /\
      0 <= k <= 6 /\
      exists pre, acc ++ map snd consumed = pre ++ Legacy.spelling k.
Proof.
  assert (Hleave : forall st acc k w' (w : world),
            (exists pre, acc = pre ++ Legacy.state_spelling st) ->
            (Legacy.after_loop st, w) = (k, w') ->
            0 <= k <= 6 /\
            exists pre,
              acc ++ map snd (@nil (Z * Z)) = pre ++ Legacy.spelling k).
  { intros st acc k w' w [pre ->] [= <- _]. cbn [map]. rewrite app_nil_r.
    destruct st; cbn [Legacy.after_loop Legacy.state_spelling];
      (split; [unfold Legacy.KEY_ESC; lia|]);
      try change (Legacy.spelling 0) with (@nil Z).
    - exists pre. reflexivity.
    - exists pre. reflexivity.
    - exists (pre ++ [27; 91]). rewrite app_nil_r. reflexivity. }
  induction inp as [|[a b] inp IH]; intros t st exitAt acc k w' Hacc H;
    cbn [Legacy.readSerial_loop] in H.
  - exists []. split; [injection H as _ <-; reflexivity|].
    exact (Hleave _ _ _ _ _ Hacc H).
  - destruct (negb (Z.max t a <? exitAt)).
    { exists []. split; [injection H as _ <-; reflexivity|].
      exact (Hleave _ _ _ _ _ Hacc H). }
    (* what the recursive calls need, for the state they continue in *)
    assert (Hrec : forall st',
              (exists pre, acc ++ [b] = pre ++ Legacy.state_spelling st') ->
              Legacy.readSerial_loop tout inp (Z.max t a) st'
                (u32 (Z.max t a + tout)) = (k, w') ->
              exists consumed,
                (a, b) :: inp = consumed ++ pending w' /\
                0 <= k <= 6 /\
                exists pre, acc ++ map snd consumed = pre ++ Legacy.spelling k).
    { intros st' Hst' Hrun.
      destruct (IH _ _ _ _ _ _ Hst' Hrun) as (consumed & -> & Hk & pre & Hsp).
      exists ((a, b) :: consumed). split; [reflexivity|]. split; [exact Hk|].
      exists pre. cbn [map snd]. rewrite <- Hsp, <- app_assoc. reflexivity. }
    assert (HA : exists pre, acc ++ [b] = pre ++ Legacy.state_spelling Legacy.StA)
      by (exists (acc ++ [b]); cbn [Legacy.state_spelling];
          rewrite app_nil_r; reflexivity).
    (* what an immediate return needs *)
    assert (Hret : forall k0,
              0 <= k0 <= 6 ->
              (exists pre, acc ++ [b] = pre ++ Legacy.spelling k0) ->
              (k0, World (Z.max t a) inp) = (k, w') ->
              exists consumed,
                (a, b) :: inp = consumed ++ pending w' /\
                0 <= k <= 6 /\
                exists pre, acc ++ map snd consumed = pre ++ Legacy.spelling k).
    { intros k0 Hk0 Hsp [= <- <-]. exists [(a, b)].
      split; [reflexivity|]. split; [exact Hk0|exact Hsp]. }
    destruct Hacc as [pre Hpre].
    destruct (Z.eqb_spec b 27) as [->|_].
    { destruct st; apply Hrec in H; try exact H; try exact HA.
      exists acc. reflexivity. }
    destruct (Z.eqb_spec b 91) as [->|_].
    { destruct st; apply Hrec in H; try exact H; try exact HA.
      exists pre. rewrite Hpre, <- app_assoc. reflexivity. }
    destruct (Z.eqb_spec b 65) as [->|_].
    { destruct st; cbn [orb] in H;
        [apply Hrec in H; [exact H|exact HA] ..|].
      apply (Hret Legacy.KEY_UP) in H; [exact H|unfold Legacy.KEY_UP; lia|].
      exists pre. rewrite Hpre, <- app_assoc. reflexivity. }
    destruct (Z.eqb_spec b 66) as [->|_].
    { destruct st; cbn [orb] in H;
        [apply Hrec in H; [exact H|exact HA] ..|].
      apply (Hret Legacy.KEY_DOWN) in H;
        [exact H|unfold Legacy.KEY_DOWN; lia|].
      exists pre. rewrite Hpre, <- app_assoc. reflexivity. }
    cbn [orb] in H.
    destruct (Z.eqb_spec b 32) as [->|_].
    { destruct st; [|apply Hrec in H; [exact H|exact HA] ..].
      apply (Hret Legacy.KEY_SPACE) in H;
        [exact H|unfold Legacy.KEY_SPACE; lia|].
      exists acc. reflexivity. }
    destruct (Z.eqb_spec b 49) as [->|_].
    { destruct st; cbn [orb] in H; [|apply Hrec in H; [exact H|exact HA] ..].
      apply (Hret Legacy.KEY_ONE) in H; [exact H|unfold Legacy.KEY_ONE; lia|].
      exists acc. reflexivity. }
    destruct (Z.eqb_spec b 50) as [->|_].
    { destruct st; cbn [orb] in H; [|apply Hrec in H; [exact H|exact HA] ..].
      apply (Hret Legacy.KEY_TWO) in H; [exact H|unfold Legacy.KEY_TWO; lia|].
      exists acc. reflexivity. }
    cbn [orb] in H. apply Hrec in H; [exact H|exact HA].
Qed.

(** X24.  The decoder of the first revision returns a code from 0 to 6
    only, it has then read a prefix of the pending bytes, and the bytes
    read end with the spelling of the returned key (ESC [ A for
    [KEY_UP], a single 27 for [KEY_ESC], and so on; nothing is claimed
    for 0, its "no key"). *)
Theorem legacy_readSerial_sound tout w k w' :
  Legacy.readSerial tout w = (k, w') ->
  exists consumed,
    pending w = consumed ++ pending w' /\
    0 <= k <= 6 /\
    exists pre, map snd consumed = pre ++ Legacy.spelling k.
Proof.
  unfold Legacy.readSerial. intros H.
  apply (legacy_loop_sound tout (pending w) (now w) Legacy.StA _ [] k w') in H.
  - exact H.
  - exists []. reflexivity.
Qed.

Lemma legacy_readSerial_sound_witness :
  exists consumed,
    [(0, 120); (5, 27); (10, 91); (20, 65); (30, 32)] = consumed ++ [(30, 32)]
    /\
    0 <= Legacy.KEY_UP <= 6 /\
    exists pre, map snd consumed = pre ++ Legacy.spelling Legacy.KEY_UP.
Proof.
  apply (legacy_readSerial_sound 100
           (World 0 [(0, 120); (5, 27); (10, 91); (20, 65); (30, 32)])
           Legacy.KEY_UP (World 20 [(30, 32)])).
  reflexivity.
Defined.

(** X25.  The two revisions agree on the keys they share: with exactly
    the bytes of one of the first six rows of [keyTab] ('1', '2', space,
    the two arrows, escape) in the receive buffer and silence until the
    deadline, the key-table decoder returns the row index and the first
    revision returns the corresponding key code, both within [tout] of
    the call and both leaving the same bytes unread. *)
Theorem decoders_agree_on_typed_keys tout t a k row rest :
  0 < tout -> 0 <= t -> t + tout < 2 ^ 32 -> a <= t ->
  keyTab !! k = Some row -> (k < 6)%nat ->
  quiet_until (t + tout) rest ->
  let w := World t (map (fun b => (a, b)) (row_bytes row) ++ rest) in
  exists t1 t2,
    t <= t1 <= t + tout /\ t <= t2 <= t + tout /\
    readSerial tout w = Returned (Z.of_nat k) (World t1 rest) /\
    Legacy.readSerial tout w = (legacy_code (Z.of_nat k), World t2 rest).
Proof.
  intros Htout Ht Hwrap Ha Hrow Hk Hrest w.
  destruct (readSerial_types_row tout t a k row rest
              Htout Ht Hwrap Ha Hrow Hrest) as (t1 & Ht1 & Hnew).
  assert (Hm0 : Z.max t a = t) by lia.
  assert (Hd0 : u32 (t + tout) = t + tout)
    by (apply u32_small; unfold is_u32; lia).
  assert (Hlt : (t <? t + tout) = true) by (apply Z.ltb_lt; lia).
  assert (Hend : forall st,
            Legacy.readSerial_loop tout rest t st (t + tout)
            = (Legacy.after_loop st, World (t + tout) rest)).
  { intros st. rewrite legacy_loop_timeout by exact Hrest.
    f_equal. f_equal. lia. }
  exists t1.
  destruct k as [|[|[|[|[|[|k]]]]]]; [..|lia];
    injection Hrow as <-; subst w;
    unfold Legacy.readSerial;
    cbn [row_bytes List.filter Z.eqb negb map app now pending].
  1-3: exists t; (split; [exact Ht1|]); (split; [lia|]);
    (split; [exact Hnew|]);
    cbn [Legacy.readSerial_loop]; rewrite Hm0, Hd0, Hlt; reflexivity.
  1-2: exists t; (split; [exact Ht1|]); (split; [lia|]);
    (split; [exact Hnew|]);
    cbn [Legacy.readSerial_loop]; rewrite !Hm0, !Hd0, !Hlt; reflexivity.
  exists (t + tout). split; [exact Ht1|]. split; [lia|].
  split; [exact Hnew|].
  cbn [Legacy.readSerial_loop]. rewrite Hm0, Hd0, Hlt.
  cbn [negb Z.eqb Pos.eqb]. rewrite Hend. reflexivity.
Qed.

Lemma decoders_agree_on_typed_keys_witness :
  let w := World 0 (map (fun b => (0, b)) (row_bytes [27; 91; 65]) ++ []) in
  exists t1 t2,
    0 <= t1 <= 0 + 100 /\ 0 <= t2 <= 0 + 100 /\
    readSerial 100 w = Returned (Z.of_nat 3) (World t1 []) /\
    Legacy.readSerial 100 w = (legacy_code (Z.of_nat 3), World t2 []).
Proof.
  apply (decoders_agree_on_typed_keys 100 0 0 3%nat [27; 91; 65] []);
    try reflexivity; lia.
Defined.

(** X26.  With nothing in the receive buffer and nothing arriving before
    the deadline, the key-table decoder returns [NO_KEY] at once, while
    the first revision holds its caller until the deadline before it
    returns 0. *)
Theorem idle_call_returns_at_once tout w :
  0 <= now w -> now w + tout < 2 ^ 32 -> 0 < tout ->
  quiet_until (now w + tout) (pending w) ->
  readSerial tout w = Returned NO_KEY w /\
  Legacy.readSerial tout w = (0, World (now w + tout) (pending w)).
Proof.
  intros Ht Hwrap Htout Hq.
  assert (Hd0 : u32 (now w + tout) = now w + tout)
    by (apply u32_small; unfold is_u32; lia).
  split.
  - unfold readSerial.
    rewrite (Serial_available_quiet (now w) (now w + tout)) by (lia || exact Hq).
    reflexivity.
  - unfold Legacy.readSerial. rewrite Hd0.
    rewrite legacy_loop_timeout by exact Hq.
    cbn [Legacy.after_loop]. f_equal. f_equal. lia.
Qed.

Lemma idle_call_returns_at_once_witness :
  let w := World 50 [(400, 32)] in
  readSerial 100 w = Returned NO_KEY w /\
  Legacy.readSerial 100 w = (0, World (50 + 100) [(400, 32)]).
Proof.
  intros w. apply (idle_call_returns_at_once 100 w); cbn [now pending w];
    try lia.
  cbn [quiet_until]. lia.
Defined.

(** ** Escape sequences and idle keys *)

(** With ESC in the first cell, at most one of the three ESC rows equals
    the buffer: a partial match is always left. *)
Lemma match_buffer_esc_partial b1 b2 :
  snd (match_buffer [27; b1; b2]) <> 0.
Proof.
  unfold match_buffer, keyTab. cbn [scan_keys nth match_len].
  repeat match goal with
         | |- context [Z.eqb ?x ?y] =>
             tryif is_var y then destruct (Z.eqb_spec x y)
             else (let v := eval vm_compute in (Z.eqb x y) in
                   change (Z.eqb x y) with v; cbn [negb])
         end;
    cbn; first [discriminate | lia].
Qed.

(** Once ESC is the first keystroke, the loop is left at a deadline only,
    and no deadline is earlier than the first one. *)
Lemma readSerial_loop_after_esc tout inp :
  forall t buf i exitAt mk k w' D,
    (exists b1 b2, buf = [27; b1; b2]) -> (1 <= i)%nat ->
    0 <= tout -> 0 <= t -> t + tout < 2 ^ 32 ->
    D <= exitAt -> D <= t + tout ->
    Forall (fun ab => fst ab + tout < 2 ^ 32) inp ->
    readSerial_loop tout inp t buf i exitAt mk = Returned k w' ->
    D <= now w'.
Proof.
  induction inp as [|[a b] inp IH];
    intros t buf i exitAt mk k w' D Hbuf Hi Htout Ht Hwrap HD HDt Hinp H;
    cbn [readSerial_loop] in H.
  - injection H as _ <-. cbn [now]. lia.
  - inversion Hinp as [|? ? Ha Hinp']; subst. cbn [fst] in Ha.
    destruct (negb (Z.max t a <? exitAt)).
    { injection H as _ <-. cbn [now]. lia. }
    destruct (Nat.ltb_spec i KBUFSZ) as [Hlt|_]; cbn [negb] in H;
      [|discriminate].
    destruct Hbuf as (b1 & b2 & ->).
    assert (Hbuf' : forall y1 y2 x,
              exists c1 c2, <[i:=x]> [27; y1; y2] = [27; c1; c2]).
    { intros y1 y2 x.
      destruct i as [|[|[|i]]]; [lia| | |unfold KBUFSZ in Hlt; lia];
        cbn [list_insert insert]; eauto. }
    destruct (Hbuf' b1 b2 b) as (c1 & c2 & E). rewrite E in H.
    destruct ((b =? CR) || (b =? LF)).
    + destruct (Hbuf' c1 c2 0) as (e1 & e2 & E0). rewrite E0 in H.
      apply (IH (Z.max t a) [27; e1; e2] i exitAt mk k w' D);
        [eauto|lia|lia|lia|lia|lia|lia|exact Hinp'|exact H].
    + pose proof (match_buffer_esc_partial c1 c2) as Hp.
      destruct (match_buffer [27; c1; c2]) as [mk' partial].
      cbn [snd] in Hp.
      destruct (Z.eqb_spec partial 0) as [|_]; [contradiction|].
      rewrite andb_false_r in H. cbn [andb orb] in H.
      destruct (Nat.eqb_spec i KBUFSZ) as [|_]; [lia|].
      assert (Hd : u32 (Z.max t a + tout) = Z.max t a + tout)
        by (apply u32_small; unfold is_u32; lia).
      rewrite Hd in H.
      apply (IH (Z.max t a) [27; c1; c2] (S i) (Z.max t a + tout) mk' k w' D);
        [eauto|lia|lia|lia|lia|lia|lia|exact Hinp'|exact H].
Qed.

(** X27.  A call whose first byte is ESC never returns a key before the
    timeout has passed: whatever follows, [readSerial] comes back no
    earlier than [tout] after the call (escape and the arrow keys always
    cost the full timeout).  No clock value involved wraps. *)
Theorem readSerial_escape_waits tout t a0 rest k w' :
  0 < tout -> 0 <= t -> t + tout < 2 ^ 32 -> a0 <= t ->
  Forall (fun ab => fst ab + tout < 2 ^ 32) rest ->
  readSerial tout (World t ((a0, 27) :: rest)) = Returned k w' ->
  t + tout <= now w'.
Proof.
  intros Htout Ht Hwrap Ha0 Hrest.
  assert (Hm0 : Z.max t a0 = t) by lia.
  assert (Hd0 : u32 (t + tout) = t + tout)
    by (apply u32_small; unfold is_u32; lia).
  assert (Hav : (a0 <=? t) = true) by (apply Z.leb_le; lia).
  unfold readSerial; cbn [now pending Serial_available negb].
  rewrite Hav; cbn [negb].
  accept_byte match_buffer_esc. rewrite Hm0, Hd0.
  apply readSerial_loop_after_esc; try lia; eauto.
Qed.

Lemma readSerial_escape_waits_witness :
  0 + 100 <= now (World 120 []).
Proof.
  apply (readSerial_escape_waits 100 0 0 [(10, 91); (20, 65)] KEY_AUP
           (World 120 [])); try reflexivity; try lia.
  repeat constructor; cbn [fst]; lia.
Defined.

Lemma step_idle_in_menu E2END p d l :
  state l = FT_STATE_MENU ->
  key p <> KEY_SPC -> key p <> KEY_ESC -> key p <> KEY_q ->
  key p <> KEY_1 -> key p <> KEY_2 ->
  calibrateBG_step E2END p d l = Continue d l.
Proof.
  intros Hs H1 H2 H3 H4 H5. unfold calibrateBG_step. rewrite Hs.
  destruct (Z.eqb_spec (key p) NO_KEY); [reflexivity|].
  destruct (Z.eqb_spec (key p) KEY_SPC); [contradiction|].
  destruct (Z.eqb_spec (key p) KEY_ESC); [contradiction|].
  destruct (Z.eqb_spec (key p) KEY_q); [contradiction|].
  destruct (Z.eqb_spec (key p) KEY_1); [contradiction|].
  destruct (Z.eqb_spec (key p) KEY_2); [contradiction|].
  reflexivity.
Qed.

(** X28.  In Menu only space, escape, 'q', '1' and '2' do anything: a run
    of any other keys or of polls without key (arrow keys, 'j', 'k',
    display ticks) leaves the loop in Menu with the reference constant,
    the EEPROM and the console untouched. *)
Theorem calibrateBG_menu_ignores_other_keys E2END ps d l :
  state l = FT_STATE_MENU ->
  Forall (fun p => key p <> KEY_SPC /\ key p <> KEY_ESC /\ key p <> KEY_q /\
                   key p <> KEY_1 /\ key p <> KEY_2) ps ->
  calibrateBG_loop E2END ps d l = Continue d l.
Proof.
  intros Hs Hps.
  induction Hps as [|p ps (H1 & H2 & H3 & H4 & H5) _ IH];
    cbn [calibrateBG_loop]; [reflexivity|].
  rewrite (step_idle_in_menu E2END p d l Hs H1 H2 H3 H4 H5). exact IH.
Qed.

Lemma calibrateBG_menu_ignores_other_keys_witness :
  let d := Device BGREFmV bgEEPROMID_init (replicate 1024%nat 255) [] in
  let l := Locals FT_STATE_MENU 1000 in
  calibrateBG_loop 1023
    [Poll KEY_AUP 10 0 10; Poll NO_KEY 2000 0 2000; Poll KEY_j 2010 0 2010]
    d l
  = Continue d l.
Proof.
  intros d l.
  apply (calibrateBG_menu_ignores_other_keys 1023 _ d l).
  - reflexivity.
  - repeat constructor; cbn [key]; discriminate.
Defined.
